(** * mmore dispatch engine: batch planning, dispatch and execution state

    A shallow embedding of [src/mmore/process/dispatcher.py] and
    [src/mmore/process/execution_state.py], with the properties of the
    dispatch engine stated and proved over it.

    Python integers are unbounded and are modelled as [Z]; Python lists
    are [list]; a raised exception is the [Raises] case of [outcome]. *)

From stdpp Require Import base tactics option list strings gmap sorting.
From Stdlib Require Import ZArith Lia.

Local Open Scope Z_scope.

(** ** Python exceptions and results *)

Module Py.

(** The exceptions the modelled code raises or lets through.  Every
    constructor is a subclass of Python's [Exception]. *)
Inductive exn : Type :=
| Exception (msg : string)
| AssertionError (msg : string)
| AttributeError (msg : string)
| KeyError (msg : string)
| IndexError (msg : string)
| BackendError (msg : string).

Inductive outcome (A : Type) : Type :=
| Returns (a : A)
| Raises (e : exn).
Arguments Returns {A} a.
Arguments Raises {A} e.

Global Instance outcome_ret : MRet outcome := @Returns.

Global Instance outcome_bind : MBind outcome := λ A B k m,
  match m with
  | Returns a => k a
  | Raises e => Raises e
  end.

End Py.

Import Py.

(** ** The batch planner: [batch_list] inside [Dispatcher.dispatch] *)

Section BatchPlanner.

Context {Obj : Type}.

(** [processor.get_file_len], the cost function of the processor that
    owns the bucket. *)
Variable get_file_len : Obj → Z.

(** The cost [get_file_len] returns for an item of unknown size. *)
Definition UNSIZED : Z := -1.

(** [items = [(obj, processor.get_file_len(obj)) for obj in lst]] *)
Definition with_sizes (lst : list Obj) : list (Obj * Z) :=
  (λ obj, (obj, get_file_len obj)) <$> lst.

(** [items = [item for item in items if item[1] != -1]] *)
Definition sized (items : list (Obj * Z)) : list (Obj * Z) :=
  filter (λ item, item.2 ≠ -1) items.

(** [items.sort(key=itemgetter(1), reverse=True)]: Python's sort is
    stable, also with [reverse=True], so items of equal cost keep
    their order.  [insert_desc x l] puts [x], which precedes all of
    [l] in the unsorted list, in front of the first item whose cost
    is not greater. *)
Fixpoint insert_desc (x : Obj * Z) (l : list (Obj * Z)) : list (Obj * Z) :=
  match l with
  | [] => [x]
  | y :: l' =>
      if bool_decide (x.2 < y.2) then y :: insert_desc x l' else x :: y :: l'
  end.

Definition sort_desc (items : list (Obj * Z)) : list (Obj * Z) :=
  foldr insert_desc [] items.

(** The inner loop
    [for i, batch_size in enumerate(batch_sizes): ...]
    started at index [i] with the current [best_fit_idx] and
    [min_remaining]; it returns the final [best_fit_idx]. *)
Fixpoint find_best_fit (obj_batch_size size : Z) (batch_sizes : list Z)
    (i best_fit_idx min_remaining : Z) : Z :=
  match batch_sizes with
  | [] => best_fit_idx
  | batch_size :: rest =>
      let remaining := obj_batch_size - (batch_size + size) in
      if bool_decide (0 ≤ remaining ∧ remaining < min_remaining)
      then find_best_fit obj_batch_size size rest (i + 1) i remaining
      else find_best_fit obj_batch_size size rest (i + 1)
             best_fit_idx min_remaining
  end.

(** The two parallel arrays [batches] and [batch_sizes]. *)
Definition plan : Type := list (list Obj) * list Z.

(** One iteration of [for obj, size in items].  [best_fit_idx] comes
    from [enumerate(batch_sizes)], so the indexed updates are in
    range. *)
Definition place (obj_batch_size : Z) (st : plan) (item : Obj * Z) : plan :=
  let best_fit_idx :=
    find_best_fit obj_batch_size item.2 st.2 0 (-1) obj_batch_size in
  if bool_decide (0 ≤ best_fit_idx)
  then (alter (λ b, b ++ [item.1]) (Z.to_nat best_fit_idx) st.1,
        alter (λ s, s + item.2) (Z.to_nat best_fit_idx) st.2)
  else (st.1 ++ [[item.1]], st.2 ++ [item.2]).

(** [batches = [[]]] and [batch_sizes = [0]] *)
Definition initial_plan : plan := ([[]], [0]).

Definition sorted_items (lst : list Obj) : list (Obj * Z) :=
  sort_desc (sized (with_sizes lst)).

Definition final_plan (lst : list Obj) (obj_batch_size : Z) : plan :=
  foldl (place obj_batch_size) initial_plan (sorted_items lst).

Definition batch_list (lst : list Obj) (obj_batch_size : Z)
    : list (list Obj) :=
  (final_plan lst obj_batch_size).1.

(** The aggregate cost of the members of a batch. *)
Definition aggregate (batch : list Obj) : Z :=
  foldr (λ obj acc, get_file_len obj + acc) 0 batch.

End BatchPlanner.

(** ** Best-fit-decreasing as the specification words it

    The second definition of the planner, written from the text of the
    specification and not from the code: among the open batches that can
    still take the item (remaining capacity after insertion [≥ 0]) the
    one with the smallest remaining capacity, the first one among equals;
    a new batch when none can take it.  The list of open batches starts
    as in the code. *)

Section BestFitSpec.

Context {Obj : Type}.
Variable cost : Obj → Z.

Definition remaining_after (C size aggregate_cost : Z) : Z :=
  C - (aggregate_cost + size).

(** Scan of the open batches from index [i], [best] being the best
    candidate seen so far with its remaining capacity. *)
Fixpoint bfd_choose (C size : Z) (open : list Z) (i : nat)
    (best : option (nat * Z)) : option nat :=
  match open with
  | [] => fst <$> best
  | a :: rest =>
      let r := remaining_after C size a in
      let best' :=
        if bool_decide (0 ≤ r)
        then match best with
             | Some (_, r0) => if bool_decide (r < r0) then Some (i, r) else best
             | None => Some (i, r)
             end
        else best in
      bfd_choose C size rest (S i) best'
  end.

Definition bfd_place (C : Z) (st : list (list Obj) * list Z)
    (item : Obj * Z) : list (list Obj) * list Z :=
  match bfd_choose C item.2 st.2 0%nat None with
  | Some k => (alter (λ b, b ++ [item.1]) k st.1,
               alter (λ a, a + item.2) k st.2)
  | None => (st.1 ++ [[item.1]], st.2 ++ [item.2])
  end.

Definition bfd_batch_list (lst : list Obj) (C : Z) : list (list Obj) :=
  (foldl (bfd_place C) ([[]], [0]) (sorted_items cost lst)).1.

(** What the words ask of the chosen batch, as a predicate. *)
Definition is_best_fit (C size : Z) (open : list Z) (k : nat) : Prop :=
  ∃ a, open !! k = Some a ∧ 0 ≤ remaining_after C size a ∧
    ∀ j b, open !! j = Some b → 0 ≤ remaining_after C size b →
      remaining_after C size a < remaining_after C size b ∨
      (remaining_after C size a = remaining_after C size b ∧ (k ≤ j)%nat).

Definition none_fits (C size : Z) (open : list Z) : Prop :=
  ∀ j b, open !! j = Some b → remaining_after C size b < 0.

End BestFitSpec.

(** ** Python dictionaries that keep insertion order *)

Section Dict.

Context {K V : Type} `{EqDecision K}.

Definition dict : Type := list (K * V).

Fixpoint dict_get (k : K) (m : dict) : option V :=
  match m with
  | [] => None
  | (k', v) :: m' => if decide (k = k') then Some v else dict_get k m'
  end.

(** [m[k] = v]: an existing key keeps its position. *)
Fixpoint dict_set (k : K) (v : V) (m : dict) : dict :=
  match m with
  | [] => [(k, v)]
  | (k', v') :: m' =>
      if decide (k = k') then (k, v) :: m' else (k', v') :: dict_set k v m'
  end.

End Dict.

Arguments dict : clear implicits.

(** The comprehension [{list(d.keys())[0]: list(d.values())[0] for d in ds}]
    over a list of dictionaries [ds]; an empty [d] has no first key. *)
Fixpoint first_items {V : Type} (ds : list (list (string * V)))
    (acc : gmap string V) : outcome (gmap string V) :=
  match ds with
  | [] => Returns acc
  | [] :: _ => Raises (IndexError "list index out of range")
  | ((k, v) :: _) :: ds' => first_items ds' (<[k:=v]> acc)
  end.

(** ** The dispatcher *)

Section Dispatcher.

(** A [FileDescriptor] or URL descriptor, a [MultimodalSample], a value
    of the free-form processor configuration. *)
Context {File Sample Value : Type}.

(** Processor classes.  [processors/processor.py] and its registry are
    not among the sources at hand; the dispatcher uses them through
    the following interface only. *)
Context {Processor : Type} `{EqDecision Processor}.
(** [processor.__name__] *)
Variable name : Processor → string.
(** [processor.get_file_len(file)] *)
Variable get_file_len : Processor → File → Z.
(** [ProcessorRegistry.get_processors()] *)
Variable get_processors : list Processor.
(** [AutoProcessor.from_file(file)]; [None] is Python's [None]. *)
Variable from_file : File → option Processor.
Variable URLProcessor : Processor.

(** [custom_config] handed to [ProcessorConfig]: the flattened
    per-processor entries and the ['output_path'] entry. *)
Definition custom_config : Type := gmap string (Value + option string).

(** [processor(processor_config)(files, fast)] *)
Variable run : Processor → custom_config → list File → bool →
               outcome (list Sample).

Record DispatcherConfig : Type := {
  use_fast_processors : bool;
  distributed : bool;
  scheduler_file : option string;
  output_path : option string;
  processor_config : option (gmap string (list (list (string * Value))));
  process_batch_sizes : option (list (list (string * Z)));
  batch_multiplier : Z;
}.

(** [DispatcherReadyResult], as far as the dispatcher reads it. *)
Record DispatcherReadyResult : Type := {
  file_paths : list (string * list File);
  urls : list File;
}.

Definition Task : Type := Processor * list File.

(** [processor_map[processor].append(file)] *)
Definition bucket_append (processor_map : dict Processor (list File))
    (processor : option Processor) (files : list File)
    : outcome (dict Processor (list File)) :=
  match processor with
  | None => Raises (KeyError "None")
  | Some p =>
      match dict_get p processor_map with
      | None => Raises (KeyError (name p))
      | Some l => Returns (dict_set p (l ++ files) processor_map)
      end
  end.

(** [Dispatcher._bucket_files]; the result is [self.intermediate_map]. *)
Definition _bucket_files (result : DispatcherReadyResult)
    : outcome (dict Processor (list File)) :=
  let processor_map :=
    foldl (λ m processor, dict_set processor [] m) [] get_processors in
  processor_map ←
    foldl (λ acc file, m ← acc; bucket_append m (from_file file) [file])
      (Returns processor_map) (concat (snd <$> file_paths result));
  bucket_append processor_map (Some URLProcessor) (urls result).

(** What consuming the generator [_dispatch_local] gives: the results
    yielded, the results written by
    [save_individual_processor_results], and the exception that ended
    the iteration, if any. *)
Record Generated : Type := {
  yielded : list (list Sample);
  saved : list (string * list Sample);
  raised : option exn;
}.

(** [save_individual_processor_results]: nothing is written when
    [output_path] is [None] or empty. *)
Definition save_individual_processor_results (config : DispatcherConfig)
    (results : list Sample) (cls_name : string)
    : list (string * list Sample) :=
  match output_path config with
  | None => []
  | Some path => if bool_decide (path = EmptyString) then [] else [(cls_name, results)]
  end.

(** The body of the loop of [_dispatch_local] for one task. *)
Definition run_task (config : DispatcherConfig) (task : Task)
    : outcome (list Sample) :=
  let processor_configs := default ∅ (processor_config config) in
  let processor_config := default [] (processor_configs !! name task.1) in
  processor_config ← first_items processor_config ∅;
  let processor_config : custom_config :=
    <["output_path" := inr (output_path config)]> (inl <$> processor_config) in
  run task.1 processor_config task.2 (use_fast_processors config).

Fixpoint _dispatch_local (config : DispatcherConfig) (task_lists : list Task)
    : Generated :=
  match task_lists with
  | [] => {| yielded := []; saved := []; raised := None |}
  | task :: rest =>
      match run_task config task with
      | Raises e => {| yielded := []; saved := []; raised := Some e |}
      | Returns res =>
          let later := _dispatch_local config rest in
          {| yielded := res :: yielded later;
             saved := save_individual_processor_results config res
                        (name task.1) ++ saved later;
             raised := raised later |}
      end
  end.

(** The capacity [dispatch] passes to [batch_list]:
    [self.config.batch_multiplier * batch_sizes.get(processor.__name__, 100)] *)
Definition obj_batch_size (config : DispatcherConfig)
    (batch_sizes : gmap string Z) (processor : Processor) : Z :=
  batch_multiplier config * default 100 (batch_sizes !! name processor).

(** The loop of [dispatch] that fills [task_lists]. *)
Definition make_task_lists (config : DispatcherConfig)
    (batch_sizes : gmap string Z)
    (intermediate_map : dict Processor (list File)) : list Task :=
  foldl (λ task_lists entry,
           let '(processor, file_list) := entry in
           if bool_decide (0 < length file_list)%nat
           then
             let batched_files :=
               batch_list (get_file_len processor) file_list
                 (obj_batch_size config batch_sizes processor) in
             task_lists ++ ((λ batch, (processor, batch)) <$> batched_files)
           else task_lists)
        [] intermediate_map.

(** [Dispatcher.dispatch].  Class [Dispatcher] has no base class and
    defines [__init__], [_bucket_files], [_dispatch_local], [dispatch],
    [__call__] and [save_individual_processor_results]; its instances
    carry [result], [config], [start_cluster] and [intermediate_map].
    The attribute [_dispatch_distributed] that the distributed branch
    looks up on [self] is none of them. *)
Definition dispatch (config : DispatcherConfig)
    (result : DispatcherReadyResult) : outcome Generated :=
  intermediate_map ← _bucket_files result;
  batch_sizes ← first_items (default [] (process_batch_sizes config)) ∅;
  let task_lists := make_task_lists config batch_sizes intermediate_map in
  if distributed config
  then Raises (AttributeError
         "'Dispatcher' object has no attribute '_dispatch_distributed'")
  else Returns (_dispatch_local config task_lists).

End Dispatcher.

Arguments custom_config : clear implicits.
Arguments DispatcherConfig : clear implicits.
Arguments DispatcherReadyResult : clear implicits.
Arguments Generated : clear implicits.
Arguments Task : clear implicits.

(** ** The execution state *)

Section ExecutionState.

(** A connection to the dask cluster. *)
Context {Client : Type}.

(** A [dask.distributed.Variable] handle. *)
Record DaskVariable : Type := {
  var_name : string;
  var_client : Client;
}.

(** The static variables of class [ExecutionState]. *)
Record ExecutionState : Type := {
  _use_dask : option bool;
  _dask_var : option DaskVariable;
  _local_state : bool;
}.

(** Their values in the class body. *)
Definition class_state : ExecutionState :=
  {| _use_dask := None; _dask_var := None; _local_state := false |}.

(** A method call on [ExecutionState._dask_var]; [reply] is what the
    cluster answers when the handle exists. *)
Definition on_dask_var {A : Type} (method : string)
    (v : option DaskVariable) (reply : outcome A) : outcome A :=
  match v with
  | None => Raises (AttributeError
              ("'NoneType' object has no attribute '" +:+ method +:+ "'"))
  | Some _ => reply
  end.

(** [ExecutionState.initialize(distributed_mode, client)].  [create]
    and [write] are the cluster's answers to [Variable(...)] and to
    [_dask_var.set(False)]. *)
Definition initialize (distributed_mode : option bool)
    (client : option Client) (create write : outcome ())
    (st : ExecutionState) : outcome () * ExecutionState :=
  match _use_dask st with
  | Some _ => (Raises (Exception "Execution state already initialized"), st)
  | None =>
      match distributed_mode with
      | None =>
          (Raises (AssertionError
             "Distributed mode must be set to True or False"), st)
      | Some mode =>
          let st := {| _use_dask := Some mode; _dask_var := _dask_var st;
                       _local_state := _local_state st |} in
          if mode then
            match client with
            | None =>
                (Raises (AssertionError
                   "You must be in the context of a dask client to use distributed mode"),
                 st)
            | Some c =>
                match create with
                | Raises e => (Raises e, st)
                | Returns _ =>
                    let st :=
                      {| _use_dask := _use_dask st;
                         _dask_var := Some {| var_name := "should_stop_execution";
                                              var_client := c |};
                         _local_state := _local_state st |} in
                    (on_dask_var "set" (_dask_var st) write, st)
                end
            end
          else
            (Returns (),
             {| _use_dask := _use_dask st; _dask_var := _dask_var st;
                _local_state := false |})
      end
  end.

(** [ExecutionState.get_should_stop_execution()]; [read] is the
    cluster's answer to [_dask_var.get()]. *)
Definition get_should_stop_execution (read : outcome bool)
    (st : ExecutionState) : outcome bool * ExecutionState :=
  match _use_dask st with
  | None => (Raises (Exception "Execution state not initialized"), st)
  | Some true =>
      match on_dask_var "get" (_dask_var st) read with
      | Returns b => (Returns b, st)
      | Raises e => (Returns true, st)
      end
  | Some false => (Returns (_local_state st), st)
  end.

(** [ExecutionState.set_should_stop_execution(value)]; [write] is the
    cluster's answer to [_dask_var.set(value)]. *)
Definition set_should_stop_execution (value : bool) (write : outcome ())
    (st : ExecutionState) : outcome () * ExecutionState :=
  match _use_dask st with
  | None => (Raises (Exception "Execution state not initialized"), st)
  | Some true => (on_dask_var "set" (_dask_var st) write, st)
  | Some false =>
      (Returns (),
       {| _use_dask := _use_dask st; _dask_var := _dask_var st;
          _local_state := value |})
  end.

(** Calls made on the class during a run, each with the answers of
    the cluster to the requests it makes. *)
Inductive call : Type :=
| Initialize (distributed_mode : option bool) (client : option Client)
             (create write : outcome ())
| Get (read : outcome bool)
| Set_ (value : bool) (write : outcome ()).

Definition is_initialize (c : call) : bool :=
  match c with Initialize _ _ _ _ => true | _ => false end.

Definition after_call (st : ExecutionState) (c : call) : ExecutionState :=
  match c with
  | Initialize mode client create write =>
      (initialize mode client create write st).2
  | Get read => (get_should_stop_execution read st).2
  | Set_ value write => (set_should_stop_execution value write st).2
  end.

Definition after_calls (st : ExecutionState) (calls : list call)
    : ExecutionState :=
  foldl after_call st calls.

End ExecutionState.

Arguments DaskVariable : clear implicits.
Arguments ExecutionState : clear implicits.
Arguments call : clear implicits.

(** ** [ComputeDescriptor.get_desc] *)

Module ComputeDescriptor.

(** How a call ends: with the dictionary
    [{"num_gpus": ..., "gpu_size": ...}], or with Python's
    [UnboundLocalError] for a local variable that is read before any
    assignment. *)
Inductive result : Type :=
| Desc (num_gpus : Z) (gpu_size : option Z)
| UnboundLocalError (variable : string).

(** [cuda_is_available], [device_count] and [total_memory] are the
    answers of [torch.cuda.is_available()], [torch.cuda.device_count()]
    and [torch.cuda.get_device_properties(0).total_memory]. *)
Definition get_desc (cuda_is_available : bool)
    (device_count total_memory : Z) : result :=
  if cuda_is_available then
    let num_gpus := device_count in
    if bool_decide (0 < num_gpus)
    then Desc num_gpus (Some total_memory)
    else UnboundLocalError "gpu_size"
  else Desc 0 None.

End ComputeDescriptor.

(** ** [DispatcherConfig.from_dict] and [DispatcherConfig.to_dict]

    Python stores any object in an attribute and in a dictionary; the
    two methods are modelled over an arbitrary type of objects with the
    four constants the defaults need. *)

Module ConfigDict.

Section ConfigDict.

Context {PyObj : Type}.
Variables (py_True py_False py_None py_1 : PyObj).

(** The attributes [DispatcherConfig.__init__] sets. *)
Record attributes : Type := {
  use_fast_processors : PyObj;
  distributed : PyObj;
  scheduler_file : PyObj;
  output_path : PyObj;
  processor_config : PyObj;
  process_batch_sizes : PyObj;
  batch_multiplier : PyObj;
}.

(** [config.get(key, default)] *)
Definition get (config : gmap string PyObj) (key : string) (dflt : PyObj)
    : PyObj :=
  default dflt (config !! key).

Definition from_dict (config : gmap string PyObj) : attributes :=
  {| use_fast_processors := get config "use_fast_processors" py_True;
     distributed := get config "distributed" py_False;
     scheduler_file := get config "scheduler_file" py_None;
     output_path := get config "output_path" py_None;
     processor_config := get config "processor" py_None;
     process_batch_sizes := get config "process_batch_sizes" py_None;
     batch_multiplier := get config "batch_multiplier" py_1 |}.

Definition to_dict (self : attributes) : gmap string PyObj :=
  <["use_fast_processors" := use_fast_processors self]>
  (<["distributed" := distributed self]>
  (<["scheduler_file" := scheduler_file self]>
  (<["output_path" := output_path self]>
  (<["processor" := processor_config self]>
  (<["process_batch_sizes" := process_batch_sizes self]>
  (<["batch_multiplier" := batch_multiplier self]> ∅)))))).

(** The keys [to_dict] writes and [from_dict] reads, each with the
    default [from_dict] uses. *)
Definition keys : list (string * PyObj) :=
  [("use_fast_processors", py_True); ("distributed", py_False);
   ("scheduler_file", py_None); ("output_path", py_None);
   ("processor", py_None); ("process_batch_sizes", py_None);
   ("batch_multiplier", py_1)].

End ConfigDict.

Arguments attributes : clear implicits.

End ConfigDict.

(** ** Further notions used in the statements *)

(** The calls of a run that are [set_should_stop_execution]. *)
Definition is_set {Client : Type} (c : call Client) : bool :=
  match c with Set_ _ _ => true | _ => false end.

(** The files and URLs that [_bucket_files] puts into the bucket of a
    processor: in the order of the input, URLs last. *)
Definition bucket_of {File Processor : Type} `{EqDecision Processor}
    (from_file : File → option Processor) (URLProcessor : Processor)
    (files urls : list File) (p : Processor) : list File :=
  filter (λ file, from_file file = Some p) files ++
  (if decide (p = URLProcessor) then urls else []).

(** A file can be put into a bucket of the map [m]. *)
Definition routable {File Processor : Type} `{EqDecision Processor}
    (from_file : File → option Processor)
    (m : dict Processor (list File)) (file : File) : Prop :=
  ∃ p, from_file file = Some p ∧ is_Some (dict_get p m).

(** ** Predicates on plans and buckets used in the statements *)

Section PlannerPredicates.

Context {Obj : Type}.
Variable get_file_len : Obj → Z.

(** Costs never increase along the sorted list. *)
Definition descending : list (Obj * Z) → Prop :=
  StronglySorted (λ a b, b.2 ≤ a.2).

(** [batch_sizes] holds the aggregate cost of each batch. *)
Definition tracked (st : @plan Obj) : Prop :=
  Forall2 (λ b a, a = aggregate get_file_len b) st.1 st.2.

(** A batch is within the capacity or holds one item. *)
Definition soft (C : Z) (st : @plan Obj) : Prop :=
  Forall (λ b, aggregate get_file_len b ≤ C ∨ length b = 1%nat) st.1.

(** The sum of the costs of a list of items. *)
Definition sum_sizes (items : list (Obj * Z)) : Z :=
  foldr (λ it acc, it.2 + acc) 0 items.

(** The cost of all sized items of a bucket. *)
Definition total_cost (lst : list Obj) : Z :=
  aggregate get_file_len (filter (λ obj, get_file_len obj ≠ UNSIZED) lst).

(** What is known of the candidate [best] after the batches [pre] have
    been scanned. *)
Definition best_so_far (C size : Z) (pre : list Z) (best : option (nat * Z))
    : Prop :=
  match best with
  | Some (k, r) =>
      ∃ a, pre !! k = Some a ∧ r = remaining_after C size a ∧ 0 ≤ r ∧
        ∀ j b, pre !! j = Some b → 0 ≤ remaining_after C size b →
          r < remaining_after C size b ∨
          (r = remaining_after C size b ∧ (k ≤ j)%nat)
  | None => none_fits C size pre
  end.

(** The costs of the members of a batch never increase. *)
Definition cost_descending : list Obj → Prop :=
  StronglySorted (λ x y, get_file_len y ≤ get_file_len x).

(** The first member of a later batch does not fit an earlier batch. *)
Definition any_fit (C : Z) (batches : list (list Obj)) : Prop :=
  ∀ i j bi bj, (i < j)%nat → batches !! i = Some bi → batches !! j = Some bj →
    ∃ x rest, bj = x :: rest ∧ C < aggregate get_file_len bi + get_file_len x.

End PlannerPredicates.

(** ** The scenario of the specification *)

Module Scenario.

Inductive item : Type := A | B | C | D.

Definition cost (x : item) : Z :=
  match x with A => 90 | B => 60 | C => 40 | D => 30 end.

End Scenario.

(** ** A small installation, for concrete runs

    Two processor classes; a file is described by its cost, a sample by
    the file it comes from. *)

Module Demo.

Inductive processor : Type := DocProcessor | URLProcessor.

Global Instance processor_eq_dec : EqDecision processor.
Proof. solve_decision. Defined.

Definition name (p : processor) : string :=
  match p with
  | DocProcessor => "DocProcessor"
  | URLProcessor => "URLProcessor"
  end.

Definition get_file_len (_ : processor) (file : Z) : Z := file.

Definition get_processors : list processor := [DocProcessor; URLProcessor].

Definition from_file (_ : Z) : option processor := Some DocProcessor.

Definition run (_ : processor) (_ : custom_config ()) (files : list Z)
    (_ : bool) : outcome (list Z) :=
  Returns files.

Definition config (distributed : bool) : DispatcherConfig () :=
  {| use_fast_processors := true;
     distributed := distributed;
     scheduler_file := None;
     output_path := None;
     processor_config := None;
     process_batch_sizes := Some [[("DocProcessor", 100)]];
     batch_multiplier := 1 |}.

Definition nothing : DispatcherReadyResult Z :=
  {| file_paths := []; urls := [] |}.

End Demo.

(** * Properties *)

(** ** The sort *)

Section SortFacts.

Context {Obj : Type}.
Implicit Types (x : Obj * Z) (l : list (Obj * Z)).

Lemma insert_desc_perm x l : insert_desc x l ≡ₚ x :: l.
Proof.
  induction l as [|y l IH]; simpl; [done|].
  case_bool_decide; [|done].
  rewrite IH. apply Permutation_swap.
Qed.

Lemma sort_desc_perm l : sort_desc l ≡ₚ l.
Proof.
  induction l as [|x l IH]; simpl; [done|].
  by rewrite insert_desc_perm, IH.
Qed.


Lemma insert_desc_descending x l :
  descending l → descending (insert_desc x l).
Proof.
  unfold descending.
  induction l as [|y l IH]; simpl; intros Hl.
  - repeat constructor.
  - apply StronglySorted_cons in Hl as [Hy Hl].
    case_bool_decide as Hlt.
    + apply StronglySorted_cons. split; [|by apply IH].
      rewrite insert_desc_perm. constructor; [lia|done].
    + apply StronglySorted_cons. split.
      * constructor; [lia|].
        eapply Forall_impl; [exact Hy|]. simpl. intros z Hz. lia.
      * by apply StronglySorted_cons.
Qed.

Lemma sort_desc_descending l : descending (sort_desc l).
Proof.
  induction l as [|x l IH]; simpl.
  - constructor.
  - by apply insert_desc_descending.
Qed.

(** Stability: the items of any one cost keep their order. *)
Lemma insert_desc_stable (c : Z) x l :
  filter (λ it, it.2 = c) (insert_desc x l) =
  filter (λ it, it.2 = c) (x :: l).
Proof.
  induction l as [|y l IH]; simpl; [done|].
  case_bool_decide as Hlt; [|done].
  rewrite (filter_cons _ y), IH, !filter_cons.
  repeat case_decide; try done; lia.
Qed.

Lemma sort_desc_stable (c : Z) l :
  filter (λ it, it.2 = c) (sort_desc l) = filter (λ it, it.2 = c) l.
Proof.
  induction l as [|x l IH]; simpl; [done|].
  rewrite insert_desc_stable, !filter_cons, IH. done.
Qed.

End SortFacts.

(** ** The items that reach the packing loop *)

Section ItemFacts.

Context {Obj : Type}.
Variable get_file_len : Obj → Z.

Lemma sized_with_sizes (lst : list Obj) :
  sized (with_sizes get_file_len lst) =
  with_sizes get_file_len (filter (λ obj, get_file_len obj ≠ -1) lst).
Proof.
  unfold sized, with_sizes.
  induction lst as [|obj lst IH]; [done|].
  rewrite fmap_cons, !filter_cons. simpl.
  case_decide; [rewrite fmap_cons|]; by rewrite IH.
Qed.

Lemma sorted_items_fst (lst : list Obj) :
  (sorted_items get_file_len lst).*1 ≡ₚ
  filter (λ obj, get_file_len obj ≠ -1) lst.
Proof.
  unfold sorted_items. rewrite sort_desc_perm, sized_with_sizes.
  unfold with_sizes. rewrite <-list_fmap_compose.
  by rewrite list_fmap_id.
Qed.

Lemma sorted_items_cost (lst : list Obj) :
  Forall (λ it, it.2 = get_file_len it.1 ∧ it.2 ≠ -1)
    (sorted_items get_file_len lst).
Proof.
  unfold sorted_items. rewrite sort_desc_perm.
  apply Forall_forall. intros it Hit.
  apply list_elem_of_filter in Hit as [Hne Hit].
  apply list_elem_of_fmap in Hit as (obj & -> & _). done.
Qed.

End ItemFacts.

(** ** The packing loop *)

Section PackingFacts.

Context {Obj : Type}.
Variable get_file_len : Obj → Z.

Local Abbreviation aggregate := (aggregate get_file_len).
Local Abbreviation plan := (@plan Obj).
Local Abbreviation tracked := (tracked get_file_len).
Local Abbreviation soft := (soft get_file_len).

Lemma aggregate_snoc (b : list Obj) obj :
  aggregate (b ++ [obj]) = aggregate b + get_file_len obj.
Proof. induction b as [|y b IH]; simpl in *; lia. Qed.

(** The scan either keeps the index it started with or returns the
    position of a batch that the item fits, with less remaining space
    than the bound it started with. *)
Lemma find_best_fit_cases C size (l : list Z) i b m :
  0 ≤ i →
  find_best_fit C size l i b m = b ∨
  ∃ a, i ≤ find_best_fit C size l i b m ∧
       l !! Z.to_nat (find_best_fit C size l i b m - i) = Some a ∧
       0 ≤ C - (a + size) ∧ C - (a + size) < m.
Proof.
  revert i b m. induction l as [|a l IH]; intros i b m Hi; simpl; [by left|].
  assert (∀ r, i + 1 ≤ r → Z.to_nat (r - i) = S (Z.to_nat (r - (i + 1))))
    as Hidx by (intros; lia).
  case_bool_decide as Hc.
  - right. destruct (IH (i + 1) i (C - (a + size))) as [->|(a' & ? & ? & ? & ?)];
      [lia| |].
    + exists a. rewrite Z.sub_diag. simpl. repeat split; lia.
    + exists a'. rewrite Hidx by done. simpl. repeat split; try done; lia.
  - destruct (IH (i + 1) b m) as [->|(a' & ? & ? & ? & ?)]; [lia|by left|].
    right. exists a'. rewrite Hidx by done. simpl. repeat split; try done; lia.
Qed.


Lemma initial_plan_tracked : tracked initial_plan.
Proof. repeat constructor. Qed.

(** The two ways an iteration ends. *)
Lemma place_cases C (st : plan) (it : Obj * Z) :
  tracked st →
  (∃ k b, st.1 !! k = Some b ∧ st.2 !! k = Some (aggregate b) ∧
          0 ≤ C - (aggregate b + it.2) ∧ C - (aggregate b + it.2) < C ∧
          place C st it = (alter (λ b, b ++ [it.1]) k st.1,
                           alter (λ s, s + it.2) k st.2)) ∨
  place C st it = (st.1 ++ [[it.1]], st.2 ++ [it.2]).
Proof.
  intros Htr. unfold place. case_bool_decide as Hfound; [left|by right].
  destruct (find_best_fit_cases C it.2 st.2 0 (-1) C) as [Heq|(a & _ & Hk & ? & ?)];
    [lia|lia|].
  rewrite Z.sub_0_r in Hk.
  destruct (Forall2_lookup_r _ _ _ _ _ Htr Hk) as (b & Hb & ->).
  by exists (Z.to_nat (find_best_fit C it.2 st.2 0 (-1) C)), b.
Qed.

Lemma place_tracked C (st : plan) it :
  it.2 = get_file_len it.1 → tracked st → tracked (place C st it).
Proof.
  intros Hcost Htr.
  destruct (place_cases C st it Htr) as [(k & b & _ & _ & _ & _ & ->)| ->];
    unfold tracked; simpl.
  - apply Forall2_alter; [done|]. intros b' a _ _ ->.
    by rewrite aggregate_snoc, Hcost.
  - apply Forall2_app; [done|]. repeat constructor. simpl. lia.
Qed.


Lemma place_soft C (st : plan) it :
  it.2 = get_file_len it.1 → tracked st → soft C st → soft C (place C st it).
Proof.
  intros Hcost Htr Hs.
  destruct (place_cases C st it Htr) as [(k & b & Hb & _ & ? & _ & ->)| ->];
    unfold soft; simpl.
  - apply Forall_alter; [done|]. intros b' Hb' _. simplify_eq. simpl.
    left. rewrite aggregate_snoc, <-Hcost. lia.
  - apply Forall_app. split; [done|]. apply Forall_singleton. by right.
Qed.

Lemma concat_alter_snoc (l : list (list Obj)) k b obj :
  l !! k = Some b → concat (alter (λ b, b ++ [obj]) k l) ≡ₚ obj :: concat l.
Proof.
  revert k. induction l as [|b' l IH]; intros [|k] Hk; simplify_eq/=.
  - rewrite <-app_assoc. simpl.
    by rewrite <-Permutation_middle.
  - rewrite (IH k) by done. by rewrite <-Permutation_middle.
Qed.

Lemma place_concat C (st : plan) it :
  tracked st → concat (place C st it).1 ≡ₚ it.1 :: concat st.1.
Proof.
  intros Htr.
  destruct (place_cases C st it Htr) as [(k & b & Hb & _ & _ & _ & ->)| ->];
    simpl.
  - by eapply concat_alter_snoc.
  - rewrite concat_app. simpl.
    by rewrite <-Permutation_cons_append.
Qed.

(** The loop as a whole. *)
Lemma loop_invariants C (items : list (Obj * Z)) (st : plan) :
  Forall (λ it, it.2 = get_file_len it.1) items →
  tracked st →
  let st' := foldl (place C) st items in
  tracked st' ∧ (soft C st → soft C st') ∧
  concat st'.1 ≡ₚ concat st.1 ++ items.*1.
Proof.
  revert st. induction items as [|it items IH]; intros st Hitems Htr; simpl.
  - by rewrite app_nil_r.
  - apply Forall_cons in Hitems as [Hit Hitems].
    destruct (IH (place C st it) Hitems (place_tracked C st it Hit Htr))
      as (Htr' & Hs' & Hperm).
    split; [done|]. split.
    + intros Hs. apply Hs'. by apply place_soft.
    + rewrite Hperm, place_concat by done.
      by rewrite <-Permutation_middle.
Qed.

Lemma final_plan_invariants (lst : list Obj) C :
  tracked (final_plan get_file_len lst C) ∧
  (0 ≤ C → soft C (final_plan get_file_len lst C)) ∧
  concat (batch_list get_file_len lst C) ≡ₚ
    filter (λ obj, get_file_len obj ≠ -1) lst.
Proof.
  unfold batch_list, final_plan.
  destruct (loop_invariants C (sorted_items get_file_len lst) initial_plan)
    as (Htr & Hs & Hperm).
  - eapply Forall_impl; [apply sorted_items_cost|]. by intros it [? _].
  - apply initial_plan_tracked.
  - split; [done|]. split.
    + intros HC. apply Hs. repeat constructor. simpl. lia.
    + rewrite Hperm. simpl. apply sorted_items_fst.
Qed.

End PackingFacts.

(** ** Capacity and conservation of items *)

Lemma elem_of_concat_batches {A : Type} (x : A) (ls : list (list A)) :
  x ∈ concat ls ↔ ∃ l, l ∈ ls ∧ x ∈ l.
Proof.
  induction ls as [|l ls IH]; simpl.
  - split; [by intros ?%elem_of_nil|]. by intros (l & ?%elem_of_nil & _).
  - rewrite elem_of_app, IH. split.
    + intros [Hx|(l' & Hl' & Hx)].
      * exists l. split; [apply elem_of_cons; by left|done].
      * exists l'. split; [apply elem_of_cons; by right|done].
    + intros (l' & [->|Hl']%elem_of_cons & Hx); [by left|right; eauto].
Qed.

(** C1. For every bucket, cost function and capacity [C > 0], each batch
    returned by [batch_list] has an aggregate cost of at most [C] or
    holds exactly one item; the capacity rejects no item: every item
    with a known size is in some batch, whatever its cost. *)
Theorem batch_list_capacity_is_soft {Obj : Type} (get_file_len : Obj → Z)
    (lst : list Obj) (C : Z) :
  0 < C →
  Forall (λ batch, aggregate get_file_len batch ≤ C ∨ length batch = 1%nat)
    (batch_list get_file_len lst C) ∧
  ∀ obj, obj ∈ lst → get_file_len obj ≠ UNSIZED →
    ∃ batch, batch ∈ batch_list get_file_len lst C ∧ obj ∈ batch.
Proof.
  intros HC.
  destruct (final_plan_invariants get_file_len lst C) as (_ & Hsoft & Hperm).
  split.
  - apply Hsoft. lia.
  - intros obj Hobj Hsz. apply elem_of_concat_batches. rewrite Hperm.
    apply list_elem_of_filter. done.
Qed.

Lemma batch_list_capacity_is_soft_witness :
  Forall (λ batch, aggregate (λ x : Z, x) batch ≤ 100 ∨ length batch = 1%nat)
    (batch_list (λ x : Z, x) [150; 60; 50] 100) ∧
  ∀ obj, obj ∈ [150; 60; 50] → obj ≠ UNSIZED →
    ∃ batch, batch ∈ batch_list (λ x : Z, x) [150; 60; 50] 100 ∧ obj ∈ batch.
Proof. apply (batch_list_capacity_is_soft (λ x : Z, x) [150; 60; 50] 100). lia. Defined.

(** C2. The items of all batches returned by [batch_list], taken
    together as a multiset, are the items of the bucket without those of
    cost [UNSIZED]: no sized item is lost or duplicated. *)
Theorem batch_list_keeps_sized_items {Obj : Type} (get_file_len : Obj → Z)
    (lst : list Obj) (C : Z) :
  concat (batch_list get_file_len lst C) ≡ₚ
  filter (λ obj, get_file_len obj ≠ UNSIZED) lst.
Proof. apply final_plan_invariants. Qed.

(** C6. On the bucket [A:90, B:60, C:40, D:30] with capacity 100,
    [batch_list] returns the three batches [[A]], [[B, C]] and [[D]], of
    aggregate cost 90, 100 and 30; every item is in a batch and no batch
    exceeds 100. *)
Theorem scenario_three_batches :
  let batches := batch_list Scenario.cost
                   [Scenario.A; Scenario.B; Scenario.C; Scenario.D] 100 in
  batches = [[Scenario.A]; [Scenario.B; Scenario.C]; [Scenario.D]] ∧
  aggregate Scenario.cost <$> batches = [90; 100; 30] ∧
  (final_plan Scenario.cost
     [Scenario.A; Scenario.B; Scenario.C; Scenario.D] 100).2 = [90; 100; 30] ∧
  concat batches ≡ₚ [Scenario.A; Scenario.B; Scenario.C; Scenario.D] ∧
  Forall (λ batch, aggregate Scenario.cost batch ≤ 100) batches.
Proof.
  assert (batch_list Scenario.cost
            [Scenario.A; Scenario.B; Scenario.C; Scenario.D] 100
          = [[Scenario.A]; [Scenario.B; Scenario.C]; [Scenario.D]]) as Heq
    by (vm_compute; reflexivity).
  simpl. rewrite Heq.
  split; [reflexivity|]. split; [reflexivity|].
  split; [vm_compute; reflexivity|]. split; [reflexivity|].
  repeat constructor; vm_compute; congruence.
Qed.

(** ** The batch the planner starts with *)

Section EmptyBatchFacts.

Context {Obj : Type}.
Variable get_file_len : Obj → Z.

Local Abbreviation plan := (@plan Obj).

Lemma find_best_fit_no_candidate C size (l : list Z) i b m :
  Forall (λ a, ¬ (0 ≤ C - (a + size) ∧ C - (a + size) < m)) l →
  find_best_fit C size l i b m = b.
Proof.
  revert i. induction l as [|a l IH]; intros i Hall; simpl; [done|].
  apply Forall_cons in Hall as [Ha Hall].
  rewrite bool_decide_false by done. by apply IH.
Qed.

Lemma find_best_fit_none C size (l : list Z) i b m :
  Forall (λ a, C - (a + size) < 0) l → find_best_fit C size l i b m = b.
Proof.
  intros Hall. apply find_best_fit_no_candidate.
  eapply Forall_impl; [exact Hall|]. simpl. intros; lia.
Qed.

(** The scan of a plan whose first batch is empty. *)
Lemma find_best_fit_head C size (sz : list Z) :
  find_best_fit C size (0 :: sz) 0 (-1) C =
  if bool_decide (0 < size ≤ C)
  then find_best_fit C size sz 1 0 (C - size)
  else find_best_fit C size sz 1 (-1) C.
Proof. simpl. repeat case_bool_decide; try lia; done. Qed.

(** While the first batch is empty, an item whose cost is not in
    [1..C] leaves it empty. *)
Lemma place_head_stays_empty C (bs : list (list Obj)) (sz : list Z) it :
  ¬ (0 < it.2 ≤ C) →
  ∃ bs' sz', place C ([] :: bs, 0 :: sz) it = ([] :: bs', 0 :: sz').
Proof.
  intros Hno. unfold place. cbn [fst snd].
  rewrite find_best_fit_head, (bool_decide_false (0 < it.2 ≤ C)) by done.
  destruct (find_best_fit_cases C it.2 sz 1 (-1) C) as [->|(a & Hle & _)];
    [lia| |].
  - rewrite bool_decide_false by lia. eauto.
  - rewrite bool_decide_true by lia.
    replace (Z.to_nat (find_best_fit C it.2 sz 1 (-1) C))
      with (S (Z.to_nat (find_best_fit C it.2 sz 1 (-1) C - 1))) by lia.
    simpl. eauto.
Qed.

Lemma loop_head_stays_empty C (items : list (Obj * Z)) :
  Forall (λ it, ¬ (0 < it.2 ≤ C)) items →
  ∀ bs sz, ∃ bs' sz',
    foldl (place C) ([] :: bs, 0 :: sz) items = ([] :: bs', 0 :: sz').
Proof.
  induction items as [|it items IH]; intros Hall bs sz; simpl; [eauto|].
  apply Forall_cons in Hall as [Hit Hall].
  destruct (place_head_stays_empty C bs sz it Hit) as (bs' & sz' & ->).
  by apply IH.
Qed.

Lemma place_nonempty C (st : plan) it :
  Forall (λ b, b ≠ []) st.1 → Forall (λ b, b ≠ []) (place C st it).1.
Proof.
  intros Hne. unfold place. case_bool_decide; simpl.
  - apply Forall_alter; [done|]. intros b _ _. by destruct b.
  - apply Forall_app. split; [done|]. by apply Forall_singleton.
Qed.

Lemma loop_nonempty C (items : list (Obj * Z)) (st : plan) :
  Forall (λ b, b ≠ []) st.1 →
  Forall (λ b, b ≠ []) (foldl (place C) st items).1.
Proof.
  revert st. induction items as [|it items IH]; intros st Hne; simpl; [done|].
  by apply IH, place_nonempty.
Qed.

(** An item above the capacity opens a batch of its own while the
    other batches are above the capacity as well. *)
Lemma place_oversized C (bs : list (list Obj)) (sz : list Z) it :
  0 < C → C < it.2 → Forall (λ a, C < a) sz →
  place C ([] :: bs, 0 :: sz) it = ([] :: bs ++ [[it.1]], 0 :: sz ++ [it.2]).
Proof.
  intros HC Hit Hsz. unfold place. cbn [fst snd].
  rewrite find_best_fit_head, (bool_decide_false (0 < it.2 ≤ C)) by lia.
  rewrite find_best_fit_none, bool_decide_false; [done|lia|].
  eapply Forall_impl; [exact Hsz|]. simpl. intros; lia.
Qed.

(** The first item that fits the empty batch goes into it. *)
Lemma place_first_fit C (bs : list (list Obj)) (sz : list Z) it :
  0 < it.2 ≤ C → Forall (λ a, C < a) sz →
  place C ([] :: bs, 0 :: sz) it = ([it.1] :: bs, it.2 :: sz).
Proof.
  intros Hit Hsz. unfold place. cbn [fst snd].
  rewrite find_best_fit_head, (bool_decide_true (0 < it.2 ≤ C)) by done.
  rewrite find_best_fit_none, bool_decide_true; [|lia|].
  { simpl. by rewrite Z.add_0_l. }
  eapply Forall_impl; [exact Hsz|]. simpl. intros; lia.
Qed.

Lemma loop_fills_head C (items : list (Obj * Z)) :
  descending items → Exists (λ it, 0 < it.2 ≤ C) items →
  ∀ bs sz, Forall (λ b, b ≠ []) bs → Forall (λ a, C < a) sz →
    Forall (λ b, b ≠ []) (foldl (place C) ([] :: bs, 0 :: sz) items).1.
Proof.
  induction items as [|it items IH]; intros Hdesc Hex bs sz Hbs Hsz.
  { by apply Exists_nil in Hex. }
  apply StronglySorted_cons in Hdesc as [Hhd Hdesc]. simpl.
  destruct (decide (0 < it.2 ≤ C)) as [Hit|Hit].
  - rewrite place_first_fit by done. apply loop_nonempty. by constructor.
  - apply Exists_cons in Hex as [?|Hex]; [done|].
    pose proof Hex as Hex'. apply Exists_exists in Hex' as (it' & Hin & Hit').
    rewrite Forall_forall in Hhd. specialize (Hhd it' Hin). simpl in Hhd.
    rewrite place_oversized by (done || lia).
    apply IH; [done|done| |].
    + apply Forall_app. split; [done|]. by apply Forall_singleton.
    + apply Forall_app. split; [done|]. apply Forall_singleton. lia.
Qed.

Lemma sorted_items_elem (lst : list Obj) it :
  it ∈ sorted_items get_file_len lst ↔
  it.1 ∈ lst ∧ it.2 = get_file_len it.1 ∧ it.2 ≠ -1.
Proof.
  unfold sorted_items, sized, with_sizes.
  rewrite sort_desc_perm, list_elem_of_filter, list_elem_of_fmap. split.
  - intros (Hne & obj & -> & Hobj). done.
  - intros (Hin & Hc & Hne). split; [done|]. exists it.1.
    split; [|done]. destruct it; simpl in *; congruence.
Qed.

(** The empty batch is still there at the end exactly when no item of
    the bucket has a cost in [1..C]. *)
Lemma empty_batch_iff (lst : list Obj) C :
  [] ∈ batch_list get_file_len lst C ↔
  ∀ obj, obj ∈ lst → ¬ (0 < get_file_len obj ≤ C).
Proof.
  unfold batch_list, final_plan, initial_plan. split.
  - intros Hin obj Hobj Hrange.
    assert (Forall (λ b : list Obj, b ≠ [])
              (foldl (place C) ([[]], [0]) (sorted_items get_file_len lst)).1)
      as Hne.
    { apply loop_fills_head; [apply sort_desc_descending| |done|done].
      apply Exists_exists. exists (obj, get_file_len obj). split; [|done].
      apply sorted_items_elem. simpl. repeat split; [done|lia]. }
    rewrite Forall_forall in Hne. by apply (Hne [] Hin).
  - intros Hall.
    destruct (loop_head_stays_empty C (sorted_items get_file_len lst))
      with (bs := @nil (list Obj)) (sz := @nil Z) as (bs' & sz' & ->).
    + apply Forall_forall. intros it (Hin & Hc & _)%sorted_items_elem.
      rewrite Hc. by apply Hall.
    + simpl. apply elem_of_cons. by left.
Qed.

End EmptyBatchFacts.

(** ** The number of batches *)

Section CountFacts.

Context {Obj : Type}.
Variable get_file_len : Obj → Z.

Local Abbreviation plan := (@plan Obj).
Local Abbreviation total_cost := (total_cost get_file_len).


Lemma sum_sizes_perm (l k : list (Obj * Z)) :
  l ≡ₚ k → sum_sizes l = sum_sizes k.
Proof. induction 1; simpl in *; lia. Qed.

Lemma sum_sizes_with_sizes (lst : list Obj) :
  sum_sizes (with_sizes get_file_len lst) = aggregate get_file_len lst.
Proof. induction lst as [|obj lst IH]; simpl in *; [done|]. by rewrite IH. Qed.


Lemma sum_sizes_sorted_items (lst : list Obj) :
  sum_sizes (sorted_items get_file_len lst) = total_cost lst.
Proof.
  unfold sorted_items, total_cost.
  rewrite (sum_sizes_perm _ _ (sort_desc_perm _)), sized_with_sizes.
  apply sum_sizes_with_sizes.
Qed.

Lemma sum_sizes_nonneg (items : list (Obj * Z)) :
  Forall (λ it, 0 ≤ it.2) items → 0 ≤ sum_sizes items.
Proof. induction 1; simpl; lia. Qed.

(** No iteration removes a batch. *)
Lemma place_length C (st : plan) it :
  (length st.1 ≤ length (place C st it).1)%nat.
Proof.
  unfold place. case_bool_decide; simpl.
  - by rewrite length_alter.
  - rewrite length_app. simpl. lia.
Qed.

Lemma loop_length C (items : list (Obj * Z)) (st : plan) :
  (length st.1 ≤ length (foldl (place C) st items).1)%nat.
Proof.
  revert st. induction items as [|it items IH]; intros st; simpl; [done|].
  etrans; [apply (place_length C st it)|apply IH].
Qed.

Lemma batch_list_length_pos (lst : list Obj) C :
  (1 ≤ length (batch_list get_file_len lst C))%nat.
Proof. apply (loop_length C _ initial_plan). Qed.

(** Items of cost 0 meeting batches of aggregate 0 open one batch each. *)
Lemma loop_all_zero C (items : list (Obj * Z)) (st : plan) :
  0 < C → Forall (λ it, it.2 = 0) items → Forall (λ a, a = 0) st.2 →
  length (foldl (place C) st items).1 = (length st.1 + length items)%nat.
Proof.
  intros HC. revert st.
  induction items as [|it items IH]; intros st Hall Hst; simpl; [lia|].
  apply Forall_cons in Hall as [Hit Hall].
  assert (place C st it = (st.1 ++ [[it.1]], st.2 ++ [it.2])) as ->.
  { unfold place. rewrite find_best_fit_no_candidate, bool_decide_false;
      [done|lia|].
    eapply Forall_impl; [exact Hst|]. simpl. intros a ->. lia. }
  rewrite IH; simpl.
  - rewrite length_app. simpl. lia.
  - done.
  - apply Forall_app. split; [done|]. by apply Forall_singleton.
Qed.

(** Once the only batch is not empty and the capacity covers all that
    is left, everything goes into it. *)
Lemma loop_single_batch C (items : list (Obj * Z)) (b : list Obj) (a : Z) :
  0 < a → Forall (λ it, 0 ≤ it.2) items → a + sum_sizes items ≤ C →
  length (foldl (place C) ([b], [a]) items).1 = 1%nat.
Proof.
  revert b a. induction items as [|it items IH]; intros b a Ha Hall Hsum;
    simpl; [done|].
  apply Forall_cons in Hall as [Hit Hall]. simpl in Hsum.
  pose proof (sum_sizes_nonneg items Hall).
  assert (place C ([b], [a]) it = ([b ++ [it.1]], [a + it.2])) as ->.
  { unfold place. cbn [fst snd find_best_fit].
    rewrite (bool_decide_true (_ ∧ _)) by lia.
    by rewrite bool_decide_true. }
  apply IH; [lia|done|lia].
Qed.

Lemma descending_head_max (items : list (Obj * Z)) :
  descending items → Exists (λ it, 0 < it.2) items →
  ∃ it rest, items = it :: rest ∧ 0 < it.2.
Proof.
  intros Hdesc Hex. destruct items as [|it rest]; [by apply Exists_nil in Hex|].
  exists it, rest. split; [done|].
  apply StronglySorted_cons in Hdesc as [Hhd _].
  apply Exists_cons in Hex as [?|Hex]; [done|].
  apply Exists_exists in Hex as (it' & Hin & ?).
  rewrite Forall_forall in Hhd. specialize (Hhd it' Hin). simpl in Hhd. lia.
Qed.

(** A capacity that covers the whole bucket: one batch, unless every
    sized item costs 0. *)
Lemma batch_list_whole_bucket (lst : list Obj) C :
  (∀ obj, obj ∈ lst → -1 ≤ get_file_len obj) →
  0 < C → total_cost lst ≤ C →
  length (batch_list get_file_len lst C) = 1%nat ∨
  Forall (λ it, it.2 = 0) (sorted_items get_file_len lst).
Proof.
  intros Hcost HC Htotal.
  assert (Forall (λ it, 0 ≤ it.2) (sorted_items get_file_len lst)) as Hnonneg.
  { apply Forall_forall. intros it (Hin & Hc & Hne)%sorted_items_elem.
    specialize (Hcost _ Hin). lia. }
  rewrite <-sum_sizes_sorted_items in Htotal.
  unfold batch_list, final_plan.
  destruct (decide (Exists (λ it, 0 < it.2) (sorted_items get_file_len lst)))
    as [Hex|Hnex].
  - left.
    destruct (descending_head_max _ (sort_desc_descending _) Hex)
      as (it & rest & Heq & Hit).
    unfold sorted_items in *. rewrite Heq in *. simpl in *.
    apply Forall_cons in Hnonneg as [_ Hrest].
    pose proof (sum_sizes_nonneg rest Hrest).
    unfold initial_plan. rewrite place_first_fit by (done || lia).
    apply loop_single_batch; [done|done|lia].
  - right. apply Forall_forall. intros it Hin.
    rewrite Forall_forall in Hnonneg. specialize (Hnonneg it Hin).
    simpl in Hnonneg.
    destruct (decide (0 < it.2)); [|lia].
    exfalso. apply Hnex, Exists_exists. eauto.
Qed.

End CountFacts.

(** C5, as the code has it.  Best-fit-decreasing is a heuristic and the
    number of batches can grow with the capacity.  What holds: for costs
    that are [UNSIZED] or not negative, and capacities [0 < C1 ≤ C2]
    where [C2] covers the total cost of the sized items of the bucket,
    [batch_list] returns at [C2] at most as many batches as at [C1]. *)
Theorem batch_count_at_covering_capacity {Obj : Type} (get_file_len : Obj → Z)
    (lst : list Obj) (C1 C2 : Z) :
  (∀ obj, obj ∈ lst → UNSIZED ≤ get_file_len obj) →
  0 < C1 → C1 ≤ C2 → total_cost get_file_len lst ≤ C2 →
  (length (batch_list get_file_len lst C2) ≤
   length (batch_list get_file_len lst C1))%nat.
Proof.
  intros Hcost H1 H12 Htotal.
  destruct (batch_list_whole_bucket get_file_len lst C2) as [->|Hzero];
    [done|lia|done| |].
  - apply batch_list_length_pos.
  - unfold batch_list, final_plan.
    rewrite !loop_all_zero; [done| | | | | | ]; try done; try lia;
      by apply Forall_singleton.
Qed.

Lemma batch_count_at_covering_capacity_witness :
  Nat.le (length (batch_list (λ x : Z, x) [30; -1; 0; 50; 20] 100))
         (length (batch_list (λ x : Z, x) [30; -1; 0; 50; 20] 60)).
Proof.
  apply (batch_count_at_covering_capacity (λ x : Z, x) [30; -1; 0; 50; 20] 60 100).
  - intros obj Hobj. unfold UNSIZED.
    repeat (apply elem_of_cons in Hobj as [->|Hobj]; [lia|]).
    by apply elem_of_nil in Hobj.
  - lia.
  - lia.
  - vm_compute. congruence.
Defined.

(** The claim C5 as stated fails: with costs 29, 29, 18, 14, 10, 8, 7,
    6, 5 the planner returns three batches at capacity 42 and four at
    capacity 43. *)
Lemma batch_count_not_monotone :
  ¬ (∀ (lst : list Z) (C1 C2 : Z), 0 < C1 → C1 ≤ C2 →
       (length (batch_list (λ x : Z, x) lst C2) ≤
        length (batch_list (λ x : Z, x) lst C1))%nat).
Proof.
  intros Hmono.
  specialize (Hmono [29; 29; 18; 14; 10; 8; 7; 6; 5] 42 43).
  assert (length (batch_list (λ x : Z, x) [29; 29; 18; 14; 10; 8; 7; 6; 5] 43)
          = 4%nat) as H43 by (vm_compute; reflexivity).
  assert (length (batch_list (λ x : Z, x) [29; 29; 18; 14; 10; 8; 7; 6; 5] 42)
          = 3%nat) as H42 by (vm_compute; reflexivity).
  rewrite H43, H42 in Hmono. lia.
Qed.

(** ** The planner against best-fit-decreasing as specified *)

Section BestFitFacts.

Context {Obj : Type}.
Variable get_file_len : Obj → Z.

Local Abbreviation plan := (@plan Obj).


(** [bfd_choose] returns the batch that the words of the specification
    describe, and [None] only when no batch can take the item. *)
Lemma bfd_choose_scan C size (l pre : list Z) best :
  best_so_far C size pre best →
  match bfd_choose C size l (length pre) best with
  | Some k => is_best_fit C size (pre ++ l) k
  | None => none_fits C size (pre ++ l)
  end.
Proof.
  revert pre best. induction l as [|a l IH]; intros pre best Hbest.
  - simpl. rewrite app_nil_r. destruct best as [[k r]|]; simpl; [|done].
    destruct Hbest as (a & Ha & -> & Hr & Hmin). by exists a.
  - simpl. rewrite cons_middle, app_assoc.
    replace (S (length pre)) with (length (pre ++ [a]))
      by (rewrite length_app; simpl; lia).
    apply IH. case_bool_decide as Hfit.
    + destruct best as [[k r]|].
      * destruct Hbest as (a0 & Ha0 & -> & Hr & Hmin).
        case_bool_decide as Hlt.
        -- exists a. split; [by apply list_lookup_middle|].
           split; [done|]. split; [done|].
           intros j b [[Hj Hb]|[-> ->]]%lookup_snoc_Some Hfb; [|right; done].
           destruct (Hmin j b Hb Hfb) as [?|[? ?]]; left; lia.
        -- exists a0. split; [by apply lookup_app_l_Some|].
           split; [done|]. split; [done|].
           intros j b [[Hj Hb]|[-> ->]]%lookup_snoc_Some Hfb; [by apply Hmin|].
           apply lookup_lt_Some in Ha0.
           destruct (decide (remaining_after C size a0 =
                             remaining_after C size b)); [right|left]; lia.
      * exists a. split; [by apply list_lookup_middle|].
        split; [done|]. split; [done|].
        intros j b [[Hj Hb]|[-> ->]]%lookup_snoc_Some Hfb; [|right; done].
        specialize (Hbest j b Hb). lia.
    + destruct best as [[k r]|].
      * destruct Hbest as (a0 & Ha0 & -> & Hr & Hmin).
        exists a0. split; [by apply lookup_app_l_Some|].
        split; [done|]. split; [done|].
        intros j b [[Hj Hb]|[-> ->]]%lookup_snoc_Some Hfb; [by apply Hmin|lia].
      * intros j b [[Hj Hb]|[-> ->]]%lookup_snoc_Some; [by eapply Hbest|lia].
Qed.

Lemma bfd_choose_best_fit C size (open : list Z) :
  match bfd_choose C size open 0 None with
  | Some k => is_best_fit C size open k
  | None => none_fits C size open
  end.
Proof.
  apply (bfd_choose_scan C size open [] None).
  intros j b Hjb. by rewrite lookup_nil in Hjb.
Qed.

(** The scan of the code and the scan of the specification, started
    with a candidate. *)
Lemma find_best_fit_candidate C size (l : list Z) (i k : nat) m :
  bfd_choose C size l i (Some (k, m)) =
  Some (Z.to_nat (find_best_fit C size l (Z.of_nat i) (Z.of_nat k) m)).
Proof.
  revert i k m. induction l as [|a l IH]; intros i k m; simpl.
  - by rewrite Nat2Z.id.
  - unfold remaining_after.
    replace (Z.of_nat i + 1) with (Z.of_nat (S i)) by lia.
    repeat case_bool_decide; try lia; by rewrite IH.
Qed.

Lemma find_best_fit_nonneg C size (l : list Z) i b m :
  0 ≤ i → 0 ≤ b → 0 ≤ find_best_fit C size l i b m.
Proof.
  intros Hi Hb.
  destruct (find_best_fit_cases C size l i b m Hi) as [->|(a & ? & _)]; lia.
Qed.

(** Started without a candidate they agree when every batch is left
    with less than [C] after the insertion. *)
Lemma find_best_fit_fresh C size (l : list Z) (i : nat) :
  Forall (λ a, 0 < a + size) l →
  bfd_choose C size l i None =
  if bool_decide (0 ≤ find_best_fit C size l (Z.of_nat i) (-1) C)
  then Some (Z.to_nat (find_best_fit C size l (Z.of_nat i) (-1) C))
  else None.
Proof.
  revert i. induction l as [|a l IH]; intros i Hall; simpl; [done|].
  apply Forall_cons in Hall as [Ha Hall]. unfold remaining_after.
  replace (Z.of_nat i + 1) with (Z.of_nat (S i)) by lia.
  case_bool_decide as Hfit.
  - rewrite (bool_decide_true (_ ∧ _)) by lia.
    rewrite find_best_fit_candidate, bool_decide_true; [done|].
    apply find_best_fit_nonneg; lia.
  - rewrite (bool_decide_false (_ ∧ _)) by lia. by apply IH.
Qed.

Lemma place_bfd_place C (st : plan) it :
  Forall (λ a, 0 < a + it.2) st.2 → place C st it = bfd_place C st it.
Proof.
  intros Hall. unfold place, bfd_place.
  rewrite (find_best_fit_fresh C it.2 st.2 0 Hall).
  change (Z.of_nat 0) with 0. by case_bool_decide.
Qed.

Lemma place_sizes_nonneg C (st : plan) it :
  0 ≤ it.2 → Forall (λ a, 0 ≤ a) st.2 → Forall (λ a, 0 ≤ a) (place C st it).2.
Proof.
  intros Hit Hst. unfold place. case_bool_decide; simpl.
  - apply Forall_alter; [done|]. intros; lia.
  - apply Forall_app. split; [done|]. by apply Forall_singleton.
Qed.

Lemma loop_bfd C (items : list (Obj * Z)) (st : plan) :
  Forall (λ it, 0 < it.2) items → Forall (λ a, 0 ≤ a) st.2 →
  foldl (place C) st items = foldl (bfd_place C) st items.
Proof.
  revert st. induction items as [|it items IH]; intros st Hall Hst; simpl;
    [done|].
  apply Forall_cons in Hall as [Hit Hall].
  rewrite <-place_bfd_place.
  - apply IH; [done|]. apply place_sizes_nonneg; [lia|done].
  - eapply Forall_impl; [exact Hst|]. simpl. intros; lia.
Qed.

(** On buckets whose sized items all have a positive cost, the code is
    best-fit-decreasing as specified. *)
Lemma batch_list_bfd_positive (lst : list Obj) C :
  (∀ obj, obj ∈ lst → get_file_len obj = UNSIZED ∨ 0 < get_file_len obj) →
  batch_list get_file_len lst C = bfd_batch_list get_file_len lst C.
Proof.
  intros Hpos. unfold batch_list, bfd_batch_list, final_plan, initial_plan.
  rewrite loop_bfd; [done| |by apply Forall_singleton].
  apply Forall_forall. intros it (Hin & Hc & Hne)%sorted_items_elem.
  destruct (Hpos _ Hin) as [Hu|?]; [|lia]. unfold UNSIZED in Hu. congruence.
Qed.

End BestFitFacts.

(** C3 at an item of cost 0.  The bucket holds one item [x] of cost 0
    and the capacity is 100.  The open batch is empty and can take [x]
    with 100 left, so best-fit-decreasing as specified returns [[[x]]];
    the code, whose scan starts from [min_remaining = obj_batch_size]
    and asks for strictly less, finds no batch, opens a second one and
    returns [[[]; [x]]]. *)
Theorem batch_list_zero_cost_item :
  batch_list (λ _ : (), 0) [()] 100 = [[]; [()]] ∧
  bfd_batch_list (λ _ : (), 0) [()] 100 = [[()]] ∧
  is_best_fit 100 0 [0] 0 ∧
  find_best_fit 100 0 [0] 0 (-1) 100 = -1.
Proof.
  split; [vm_compute; reflexivity|]. split; [vm_compute; reflexivity|].
  split; [|vm_compute; reflexivity].
  exists 0. split; [done|]. unfold remaining_after. split; [lia|].
  intros j b [-> <-]%list_lookup_singleton_Some _. right. split; [done|lia].
Qed.

(** ** Dictionaries *)

Section DictFacts.

Context {K V : Type} `{EqDecision K}.
Implicit Types (m : dict K V).

Lemma dict_get_set_eq k v m : dict_get k (dict_set k v m) = Some v.
Proof.
  induction m as [|[k' v'] m IH]; simpl.
  - by rewrite decide_True.
  - destruct (decide (k = k')) as [->|Hne]; simpl.
    + by rewrite decide_True.
    + by rewrite decide_False.
Qed.

Lemma dict_get_set_ne k k' v m :
  k ≠ k' → dict_get k (dict_set k' v m) = dict_get k m.
Proof.
  intros Hne. induction m as [|[k0 v0] m IH]; simpl.
  - by rewrite decide_False.
  - destruct (decide (k' = k0)) as [->|Hne']; simpl.
    + by rewrite !decide_False.
    + destruct (decide (k = k0)); [done|apply IH].
Qed.

Lemma dict_set_values (P : V → Prop) k v m :
  P v → Forall (λ e, P e.2) m → Forall (λ e, P e.2) (dict_set k v m).
Proof.
  intros Hv. induction 1 as [|[k' v'] m Hk' Hm IH]; simpl.
  - by apply Forall_singleton.
  - destruct (decide (k = k')); constructor; done.
Qed.

Lemma dict_get_elem k v m : dict_get k m = Some v → (k, v) ∈ m.
Proof.
  induction m as [|[k' v'] m IH]; simpl; [done|].
  destruct (decide (k = k')) as [->|Hne].
  - intros [= ->]. apply elem_of_cons. by left.
  - intros Hget. apply elem_of_cons. right. by apply IH.
Qed.

End DictFacts.

(** ** The dispatcher *)

Section DispatcherFacts.

Context {File Sample Value Processor : Type} `{EqDecision Processor}.
Variable name : Processor → string.
Variable get_file_len : Processor → File → Z.
Variable get_processors : list Processor.
Variable from_file : File → option Processor.
Variable URLProcessor : Processor.
Variable run : Processor → custom_config Value → list File → bool →
               outcome (list Sample).

Implicit Types (config : DispatcherConfig Value)
  (result : DispatcherReadyResult File)
  (m : dict Processor (list File)).

Lemma first_items_returns {A : Type} (ds : list (list (string * A))) acc :
  Forall (λ d, d ≠ []) ds → ∃ flat, first_items ds acc = Returns flat.
Proof.
  revert acc. induction ds as [|d ds IH]; intros acc Hall; simpl; [eauto|].
  apply Forall_cons in Hall as [Hd Hall].
  destruct d as [|[k v] d]; [done|]. by apply IH.
Qed.

Lemma registry_buckets_empty (ps : list Processor) m :
  Forall (λ e, e.2 = []) m →
  Forall (λ e, e.2 = []) (foldl (λ m p, dict_set p [] m) m ps).
Proof.
  revert m. induction ps as [|p ps IH]; intros m Hm; simpl; [done|].
  by apply IH, (dict_set_values (λ l, l = [])).
Qed.

Lemma registry_buckets_key (ps : list Processor) m p :
  p ∈ ps ∨ is_Some (dict_get p m) →
  is_Some (dict_get p (foldl (λ m p, dict_set p [] m) m ps)).
Proof.
  revert m. induction ps as [|q ps IH]; intros m Hp; simpl.
  - destruct Hp as [Hp|Hp]; [by apply elem_of_nil in Hp|done].
  - apply IH. destruct (decide (p = q)) as [->|Hne].
    + right. by rewrite dict_get_set_eq.
    + destruct Hp as [[?|Hp]%elem_of_cons|Hp]; [done|by left|].
      right. by rewrite dict_get_set_ne.
Qed.

(** With nothing crawled, every registered processor gets an empty
    bucket. *)
Lemma _bucket_files_nothing result :
  URLProcessor ∈ get_processors →
  concat (snd <$> file_paths result) = [] → urls result = [] →
  ∃ m, _bucket_files name get_processors from_file URLProcessor result
         = Returns m ∧ Forall (λ e, e.2 = []) m.
Proof.
  intros Hreg Hfiles Hurls. unfold _bucket_files.
  rewrite Hfiles, Hurls. simpl.
  destruct (registry_buckets_key get_processors [] URLProcessor)
    as [l Hl]; [by left|].
  pose proof (registry_buckets_empty get_processors [] (Forall_nil_2 _)) as Hall.
  unfold bucket_append. rewrite Hl. eexists. split; [done|].
  apply (dict_set_values (λ l, l = [])); [|done].
  apply dict_get_elem in Hl. rewrite Forall_forall in Hall.
  specialize (Hall _ Hl). simpl in Hall. by subst l.
Qed.

Lemma make_task_lists_acc config batch_sizes m (acc : list (Task File Processor)) :
  foldl (λ task_lists entry,
           let '(processor, file_list) := entry in
           if bool_decide (0 < length file_list)%nat
           then task_lists ++
                  ((λ batch, (processor, batch)) <$>
                     batch_list (get_file_len processor) file_list
                       (obj_batch_size name config batch_sizes processor))
           else task_lists) acc m =
  acc ++ make_task_lists name get_file_len config batch_sizes m.
Proof.
  unfold make_task_lists. revert acc.
  induction m as [|[p fl] m IH]; intros acc; simpl; [by rewrite app_nil_r|].
  case_bool_decide; [|apply IH].
  rewrite (IH (acc ++ _)), (IH (_ <$> _)). by rewrite app_assoc.
Qed.

Lemma make_task_lists_cons config batch_sizes p fl m :
  make_task_lists name get_file_len config batch_sizes ((p, fl) :: m) =
  (if bool_decide (0 < length fl)%nat
   then (λ batch, (p, batch)) <$>
          batch_list (get_file_len p) fl (obj_batch_size name config batch_sizes p)
   else []) ++ make_task_lists name get_file_len config batch_sizes m.
Proof.
  unfold make_task_lists at 1. simpl. rewrite make_task_lists_acc.
  by case_bool_decide.
Qed.

Lemma make_task_lists_nothing config batch_sizes m :
  Forall (λ e, e.2 = []) m →
  make_task_lists name get_file_len config batch_sizes m = [].
Proof.
  induction 1 as [|[p fl] m Hfl Hm IH]; [done|].
  rewrite make_task_lists_cons, IH. simpl in Hfl. subst fl. done.
Qed.

(** Every batch of a bucket that is not empty becomes a task. *)
Lemma make_task_lists_elem config batch_sizes m p fl batch :
  (p, fl) ∈ m → fl ≠ [] →
  batch ∈ batch_list (get_file_len p) fl
            (obj_batch_size name config batch_sizes p) →
  (p, batch) ∈ make_task_lists name get_file_len config batch_sizes m.
Proof.
  intros Hin Hfl Hbatch. induction m as [|[q l] m IH].
  { by apply elem_of_nil in Hin. }
  rewrite make_task_lists_cons. apply elem_of_app.
  apply elem_of_cons in Hin as [[= <- <-]|Hin]; [left|right; by apply IH].
  rewrite bool_decide_true by (destruct fl; [done|simpl; lia]).
  by apply list_elem_of_fmap_2.
Qed.

End DispatcherFacts.

(** C4 on the code.  With nothing to dispatch (no file, no URL, so every
    bucket is empty and there is no task), [dispatch] in local mode
    returns the empty result sequence without an error; in distributed
    mode it looks up [self._dispatch_distributed], which class
    [Dispatcher] does not define, and ends in [AttributeError]. *)
Theorem dispatch_without_tasks {File Sample Value Processor : Type}
    `{EqDecision Processor}
    (name : Processor → string) (get_file_len : Processor → File → Z)
    (get_processors : list Processor) (from_file : File → option Processor)
    (URLProcessor : Processor)
    (run : Processor → custom_config Value → list File → bool →
           outcome (list Sample))
    (config : DispatcherConfig Value) (result : DispatcherReadyResult File) :
  URLProcessor ∈ get_processors →
  Forall (λ d, d ≠ []) (default [] (process_batch_sizes config)) →
  concat (snd <$> file_paths result) = [] → urls result = [] →
  dispatch name get_file_len get_processors from_file URLProcessor run
    config result =
  if distributed config
  then Raises (AttributeError
         "'Dispatcher' object has no attribute '_dispatch_distributed'")
  else Returns {| yielded := []; saved := []; raised := None |}.
Proof.
  intros Hreg Hsizes Hfiles Hurls. unfold dispatch.
  destruct (_bucket_files_nothing name get_processors from_file URLProcessor
              result Hreg Hfiles Hurls) as (m & -> & Hm).
  destruct (first_items_returns _ ∅ Hsizes) as (flat & Hflat).
  simpl. rewrite Hflat. simpl.
  destruct (distributed config); [done|].
  by rewrite make_task_lists_nothing.
Qed.

Lemma dispatch_without_tasks_witness :
  dispatch Demo.name Demo.get_file_len Demo.get_processors Demo.from_file
    Demo.URLProcessor Demo.run (Demo.config true) Demo.nothing =
  Raises (AttributeError
    "'Dispatcher' object has no attribute '_dispatch_distributed'").
Proof.
  apply (dispatch_without_tasks Demo.name Demo.get_file_len
           Demo.get_processors Demo.from_file Demo.URLProcessor Demo.run
           (Demo.config true) Demo.nothing).
  - unfold Demo.get_processors. apply elem_of_cons. right.
    apply elem_of_cons. by left.
  - simpl. by apply Forall_singleton.
  - reflexivity.
  - reflexivity.
Defined.

(** C9, as the code has it.  For a bucket that is not empty, the empty
    batch that [batch_list] starts with is in the returned list exactly
    when no item of the bucket has a cost between 1 and the capacity
    (so: when every sized item costs more than the capacity, when every
    item is [UNSIZED], when the sized items cost 0); [dispatch] then
    makes a task with zero files of it.  An item above the capacity
    coming first in the sorted order does not keep the batch empty: a
    later item that fits is put into it. *)
Theorem empty_batch_becomes_task {File Value Processor : Type}
    (name : Processor → string) (get_file_len : Processor → File → Z)
    (config : DispatcherConfig Value) (batch_sizes : gmap string Z)
    (intermediate_map : dict Processor (list File))
    (processor : Processor) (file_list : list File) :
  (processor, file_list) ∈ intermediate_map → file_list ≠ [] →
  let C := obj_batch_size name config batch_sizes processor in
  ([] ∈ batch_list (get_file_len processor) file_list C ↔
   ∀ file, file ∈ file_list → ¬ (0 < get_file_len processor file ≤ C)) ∧
  ([] ∈ batch_list (get_file_len processor) file_list C →
   (processor, []) ∈
     make_task_lists name get_file_len config batch_sizes intermediate_map).
Proof.
  intros Hin Hne C. split.
  - apply empty_batch_iff.
  - intros Hempty. by eapply make_task_lists_elem.
Qed.

Lemma empty_batch_becomes_task_witness :
  let C := obj_batch_size Demo.name (Demo.config false)
             {["DocProcessor" := 100]} Demo.DocProcessor in
  ([] ∈ batch_list (Demo.get_file_len Demo.DocProcessor) [150; 120] C ↔
   ∀ file, file ∈ [150; 120] →
     ¬ (0 < Demo.get_file_len Demo.DocProcessor file ≤ C)) ∧
  ([] ∈ batch_list (Demo.get_file_len Demo.DocProcessor) [150; 120] C →
   (Demo.DocProcessor, []) ∈
     make_task_lists Demo.name Demo.get_file_len (Demo.config false)
       {["DocProcessor" := 100]}
       [(Demo.DocProcessor, [150; 120]); (Demo.URLProcessor, [])]).
Proof.
  apply (empty_batch_becomes_task Demo.name Demo.get_file_len
           (Demo.config false) {["DocProcessor" := 100]}
           [(Demo.DocProcessor, [150; 120]); (Demo.URLProcessor, [])]
           Demo.DocProcessor [150; 120]).
  - apply elem_of_cons. by left.
  - discriminate.
Defined.

(** The claim C9 as stated fails: it is not so that the empty batch is
    in the result whenever the first item in descending order cannot be
    put into it.  With costs 150 and 50 and capacity 100 the scan for
    150 finds no batch, and the result is [[[50]; [150]]]. *)
Lemma first_item_unplaced_batch_filled :
  ¬ (∀ (lst : list Z) (C : Z) (first : Z * Z) (rest : list (Z * Z)),
       0 < C →
       sorted_items (λ x : Z, x) lst = first :: rest →
       find_best_fit C first.2 (@initial_plan Z).2 0 (-1) C = -1 →
       [] ∈ batch_list (λ x : Z, x) lst C).
Proof.
  intros Hclaim.
  specialize (Hclaim [150; 50] 100 (150, 150) [(50, 50)]).
  assert (batch_list (λ x : Z, x) [150; 50] 100 = [[50]; [150]]) as Heq
    by (vm_compute; reflexivity).
  rewrite Heq in Hclaim.
  assert ([] ∈ [[50]; [150]]) as Hin.
  { apply Hclaim; [lia|vm_compute; reflexivity|vm_compute; reflexivity]. }
  apply elem_of_cons in Hin as [?|Hin]; [done|].
  apply elem_of_cons in Hin as [?|Hin]; [done|].
  by apply elem_of_nil in Hin.
Qed.

(** ** The execution state *)

Section ExecutionStateFacts.

Context {Client : Type}.
Implicit Types (st : ExecutionState Client) (c : call Client)
  (calls : list (call Client)).

(** The mode, once set, is never reset. *)
Lemma after_call_use_dask st c b :
  _use_dask st = Some b → _use_dask (after_call st c) = Some b.
Proof.
  intros Hb. destruct c; simpl.
  - unfold initialize. by rewrite Hb.
  - unfold get_should_stop_execution. rewrite Hb.
    destruct b; [|done]. by destruct (on_dask_var _ _ _).
  - unfold set_should_stop_execution. rewrite Hb. by destruct b.
Qed.

Lemma after_calls_use_dask st calls b :
  _use_dask st = Some b → _use_dask (after_calls st calls) = Some b.
Proof.
  revert st. induction calls as [|c calls IH]; intros st Hb; simpl; [done|].
  by apply IH, after_call_use_dask.
Qed.

(** In distributed mode no later call touches the handle. *)
Lemma after_call_dask_var st c :
  _use_dask st = Some true → _dask_var (after_call st c) = _dask_var st.
Proof.
  intros Hb. destruct c; simpl.
  - unfold initialize. by rewrite Hb.
  - unfold get_should_stop_execution. rewrite Hb.
    by destruct (on_dask_var _ _ _).
  - unfold set_should_stop_execution. by rewrite Hb.
Qed.

Lemma after_calls_dask_var st calls :
  _use_dask st = Some true → _dask_var (after_calls st calls) = _dask_var st.
Proof.
  revert st. induction calls as [|c calls IH]; intros st Hb; simpl; [done|].
  rewrite IH by by apply after_call_use_dask. by apply after_call_dask_var.
Qed.

(** Before [initialize], [get] and [set] leave the state as it is. *)
Lemma after_calls_uninitialized st calls :
  _use_dask st = None → Forall (λ c, is_initialize c = false) calls →
  after_calls st calls = st.
Proof.
  intros Hnone Hcalls. revert st Hnone.
  induction Hcalls as [|c calls Hc _ IH]; intros st Hnone; simpl; [done|].
  assert (after_call st c = st) as ->; [|by apply IH].
  destruct c; simpl; [done| |].
  - unfold get_should_stop_execution. by rewrite Hnone.
  - unfold set_should_stop_execution. by rewrite Hnone.
Qed.

(** What a successful [initialize] leaves behind. *)
Lemma initialize_returns st st' mode client create write :
  initialize mode client create write st = (Returns (), st') →
  ∃ b, mode = Some b ∧ _use_dask st' = Some b ∧
       (b = true → is_Some (_dask_var st')).
Proof.
  unfold initialize. intros Hinit.
  destruct (_use_dask st); [by simplify_eq|].
  destruct mode as [[]|]; [| |by simplify_eq].
  - destruct client; [|by simplify_eq].
    destruct create; [|by simplify_eq]. simpl in Hinit.
    destruct write; simplify_eq. exists true. simpl. eauto.
  - simplify_eq. exists false. simpl. repeat split. done.
Qed.

End ExecutionStateFacts.

(** C7. After [initialize] has returned, any later [initialize] raises
    the already-initialized exception, whatever was called in between;
    as long as [initialize] has not been called,
    [get_should_stop_execution] and [set_should_stop_execution] raise
    the not-initialized exception. *)
Theorem initialize_exactly_once {Client : Type}
    (st st' : ExecutionState Client)
    (mode mode' : option bool) (client client' : option Client)
    (create write create' write' : outcome ())
    (later earlier : list (call Client))
    (read : outcome bool) (value : bool) (reply : outcome ()) :
  initialize mode client create write st = (Returns (), st') →
  Forall (λ c, is_initialize c = false) earlier →
  (initialize mode' client' create' write' (after_calls st' later)).1
    = Raises (Exception "Execution state already initialized") ∧
  (get_should_stop_execution read (after_calls class_state earlier)).1
    = Raises (Exception "Execution state not initialized") ∧
  (set_should_stop_execution value reply (after_calls class_state earlier)).1
    = Raises (Exception "Execution state not initialized").
Proof.
  intros Hinit Hearlier.
  destruct (initialize_returns _ _ _ _ _ _ Hinit) as (b & _ & Hb & _).
  split.
  - unfold initialize. by rewrite (after_calls_use_dask st' later b Hb).
  - by rewrite after_calls_uninitialized.
Qed.

Lemma initialize_exactly_once_witness :
  (initialize (Some true) (Some ()) (Returns ()) (Returns ())
     (after_calls
        {| _use_dask := Some false; _dask_var := None; _local_state := false |}
        [Set_ true (Returns ()); Get (Returns false)])).1
    = Raises (Exception "Execution state already initialized") ∧
  (get_should_stop_execution (Returns false)
     (after_calls (@class_state ()) [Set_ true (Returns ())])).1
    = Raises (Exception "Execution state not initialized") ∧
  (set_should_stop_execution true (Returns ())
     (after_calls (@class_state ()) [Set_ true (Returns ())])).1
    = Raises (Exception "Execution state not initialized").
Proof.
  apply (initialize_exactly_once class_state _ (Some false) (Some true)
           None (Some ()) (Returns ()) (Returns ()) (Returns ()) (Returns ())).
  - reflexivity.
  - apply Forall_singleton. reflexivity.
Defined.

(** C8. Once [initialize] has returned in distributed mode, a call of
    [get_should_stop_execution] during which the read of the cluster
    variable fails returns [True]; the failure does not reach the
    caller and the state is unchanged. *)
Theorem get_should_stop_execution_fail_safe {Client : Type}
    (st st' : ExecutionState Client) (client : option Client)
    (create write : outcome ()) (calls : list (call Client)) (e : exn) :
  initialize (Some true) client create write st = (Returns (), st') →
  get_should_stop_execution (Raises e) (after_calls st' calls)
    = (Returns true, after_calls st' calls).
Proof.
  intros Hinit.
  destruct (initialize_returns _ _ _ _ _ _ Hinit) as (b & [= <-] & Hb & _).
  unfold get_should_stop_execution.
  rewrite (after_calls_use_dask st' calls true Hb).
  by destruct (_dask_var (after_calls st' calls)).
Qed.

Lemma get_should_stop_execution_fail_safe_witness :
  let st' :=
    {| _use_dask := Some true;
       _dask_var := Some {| var_name := "should_stop_execution";
                            var_client := () |};
       _local_state := false |} in
  get_should_stop_execution (Raises (BackendError "connection lost"))
    (after_calls st' [Set_ false (Returns ())])
  = (Returns true, after_calls st' [Set_ false (Returns ())]).
Proof.
  apply (get_should_stop_execution_fail_safe class_state _ (Some ())
           (Returns ()) (Returns ())).
  reflexivity.
Defined.

(** C10. Once [initialize] has returned in distributed mode, a call of
    [set_should_stop_execution] during which the write of the cluster
    variable fails raises that very exception to the caller, while
    [get_should_stop_execution] turns a failed read into [True]. *)
Theorem set_should_stop_execution_propagates {Client : Type}
    (st st' : ExecutionState Client) (client : option Client)
    (create write : outcome ()) (calls : list (call Client))
    (value : bool) (e : exn) :
  initialize (Some true) client create write st = (Returns (), st') →
  (set_should_stop_execution value (Raises e) (after_calls st' calls)).1
    = Raises e ∧
  (get_should_stop_execution (Raises e) (after_calls st' calls)).1
    = Returns true.
Proof.
  intros Hinit.
  destruct (initialize_returns _ _ _ _ _ _ Hinit) as (b & [= <-] & Hb & Hvar).
  unfold set_should_stop_execution, get_should_stop_execution.
  rewrite (after_calls_use_dask st' calls true Hb).
  rewrite (after_calls_dask_var st' calls Hb).
  by destruct (Hvar eq_refl) as [v ->].
Qed.

Lemma set_should_stop_execution_propagates_witness :
  let st' :=
    {| _use_dask := Some true;
       _dask_var := Some {| var_name := "should_stop_execution";
                            var_client := () |};
       _local_state := false |} in
  (set_should_stop_execution true (Raises (BackendError "connection lost"))
     (after_calls st' [Get (Returns false)])).1
    = Raises (BackendError "connection lost") ∧
  (get_should_stop_execution (Raises (BackendError "connection lost"))
     (after_calls st' [Get (Returns false)])).1
    = Returns true.
Proof.
  apply (set_should_stop_execution_propagates class_state _ (Some ())
           (Returns ()) (Returns ())).
  reflexivity.
Defined.

(** * Further properties of the code *)

(** ** The batch planner *)

Section PlannerExtras.

Context {Obj : Type}.
Variable get_file_len : Obj → Z.

Local Abbreviation aggregate := (aggregate get_file_len).
Local Abbreviation plan := (@plan Obj).
Local Abbreviation tracked := (tracked get_file_len).
Local Abbreviation cost_descending := (cost_descending get_file_len).
Local Abbreviation any_fit := (any_fit get_file_len).

Lemma tracked_eq (st : plan) : tracked st → st.2 = aggregate <$> st.1.
Proof.
  destruct st as [bs0 sz0]. intros Htr. red in Htr. simpl in *.
  induction Htr as [|b a bs sz Ha _ IH]; [reflexivity|].
  rewrite fmap_cons. simpl in *. by f_equal.
Qed.

Lemma place_length_le C (st : plan) it :
  (length (place C st it).1 ≤ S (length st.1))%nat.
Proof.
  unfold place. case_bool_decide; simpl.
  - rewrite length_alter. lia.
  - rewrite length_app. simpl. lia.
Qed.

Lemma loop_length_le C (items : list (Obj * Z)) (st : plan) :
  (length (foldl (place C) st items).1 ≤ length st.1 + length items)%nat.
Proof.
  revert st. induction items as [|it items IH]; intros st; simpl; [lia|].
  etrans; [apply IH|]. pose proof (place_length_le C st it). lia.
Qed.

Lemma sorted_items_length (lst : list Obj) :
  length (sorted_items get_file_len lst) =
  length (filter (λ obj, get_file_len obj ≠ UNSIZED) lst).
Proof.
  rewrite <-(length_fmap fst). by rewrite sorted_items_fst.
Qed.


Lemma place_members_descending C (st : plan) it (items : list (Obj * Z)) :
  it.2 = get_file_len it.1 →
  Forall (λ it', it'.2 ≤ it.2) items →
  Forall (λ b, cost_descending b ∧
               ∀ x it', x ∈ b → it' ∈ it :: items → it'.2 ≤ get_file_len x)
    st.1 →
  Forall (λ b, cost_descending b ∧
               ∀ x it', x ∈ b → it' ∈ items → it'.2 ≤ get_file_len x)
    (place C st it).1.
Proof.
  intros Hcost Hhd Hst.
  assert (Forall (λ b, cost_descending b ∧
            ∀ x it', x ∈ b → it' ∈ items → it'.2 ≤ get_file_len x) st.1)
    as Hweak.
  { eapply Forall_impl; [exact Hst|]. intros b [Hb Hle]. split; [done|].
    intros x it' Hx Hit'. apply (Hle x it' Hx). apply elem_of_cons. by right. }
  assert (cost_descending [it.1] ∧
          ∀ x it', x ∈ [it.1] → it' ∈ items → it'.2 ≤ get_file_len x)
    as Hnew.
  { split; [repeat constructor|].
    intros x it' ->%list_elem_of_singleton Hit'.
    rewrite Forall_forall in Hhd. rewrite <-Hcost. by apply Hhd. }
  unfold place. case_bool_decide; simpl.
  - rewrite Forall_lookup in Hst.
    apply Forall_alter; [done|]. intros b Hb [Hsorted Hle].
    destruct (Hst _ _ Hb) as [_ Hle']. destruct Hnew as [Hsingle Hnew].
    split.
    + apply StronglySorted_app. split; [|done].
      intros x1 x2 Hx1 ->%list_elem_of_singleton. rewrite <-Hcost.
      apply (Hle' x1 it Hx1). apply elem_of_cons. by left.
    + intros x it' [Hx|Hx]%elem_of_app Hit'; [by apply (Hle x)|].
      by apply Hnew.
  - apply Forall_app. split; [done|]. by apply Forall_singleton.
Qed.

Lemma loop_members_descending C (items : list (Obj * Z)) (st : plan) :
  descending items →
  Forall (λ it, it.2 = get_file_len it.1) items →
  Forall (λ b, cost_descending b ∧
               ∀ x it, x ∈ b → it ∈ items → it.2 ≤ get_file_len x) st.1 →
  Forall cost_descending (foldl (place C) st items).1.
Proof.
  revert st. induction items as [|it items IH]; intros st Hdesc Hcost Hst;
    simpl.
  - eapply Forall_impl; [exact Hst|]. by intros b [? _].
  - apply StronglySorted_cons in Hdesc as [Hhd Hdesc].
    apply Forall_cons in Hcost as [Hit Hcost].
    apply IH; [done|done|]. by apply place_members_descending.
Qed.

(** When the scan comes back with the index it started with, no batch
    was a candidate. *)
Lemma find_best_fit_unchanged C size (l : list Z) i b m :
  0 ≤ i → b < i → find_best_fit C size l i b m = b →
  Forall (λ a, ¬ (0 ≤ C - (a + size) ∧ C - (a + size) < m)) l.
Proof.
  revert i b m. induction l as [|a l IH]; intros i b m Hi Hb; simpl;
    [by constructor|].
  case_bool_decide as Hc.
  - intros Heq.
    destruct (find_best_fit_cases C size l (i + 1) i (C - (a + size)))
      as [Hr|(a' & Hr & _)]; lia.
  - intros Heq. constructor; [done|]. apply (IH (i + 1) b m); [lia|lia|done].
Qed.

(** The two ends of an iteration, with what the scan found. *)
Lemma place_cases_scan C (st : plan) (it : Obj * Z) :
  tracked st →
  (∃ k b, st.1 !! k = Some b ∧
          0 ≤ C - (aggregate b + it.2) ∧
          place C st it = (alter (λ b, b ++ [it.1]) k st.1,
                           alter (λ s, s + it.2) k st.2)) ∨
  (Forall (λ a, ¬ (0 ≤ C - (a + it.2) ∧ C - (a + it.2) < C)) st.2 ∧
   place C st it = (st.1 ++ [[it.1]], st.2 ++ [it.2])).
Proof.
  intros Htr.
  destruct (decide (0 ≤ find_best_fit C it.2 st.2 0 (-1) C)) as [Hfound|Hnot].
  - left. destruct (place_cases _ C st it Htr)
      as [(k & b & Hb & _ & ? & _ & Heq)|Heq].
    + by exists k, b.
    + unfold place in Heq. rewrite bool_decide_true in Heq by done.
      apply (f_equal (λ p, length p.1)) in Heq. simpl in Heq.
      rewrite length_alter, length_app in Heq. simpl in Heq. lia.
  - right. split.
    + apply (find_best_fit_unchanged C it.2 st.2 0 (-1) C); [lia|lia|].
      destruct (find_best_fit_cases C it.2 st.2 0 (-1) C) as [?|(? & ? & _)];
        [lia|done|lia].
    + unfold place. by rewrite bool_decide_false.
Qed.


Lemma place_any_fit C (st : plan) it :
  it.2 = get_file_len it.1 → 0 < it.2 →
  tracked st → Forall (λ a, 0 ≤ a) st.2 →
  any_fit C st.1 → any_fit C (place C st it).1.
Proof.
  intros Hcost Hpos Htr Hsz Hany.
  destruct (place_cases_scan C st it Htr)
    as [(k & b & Hb & Hfit & ->)|[Hnone ->]]; simpl.
  - intros i j bi bj Hij Hi Hj.
    rewrite list_lookup_alter in Hi, Hj.
    assert (∃ bi0, st.1 !! i = Some bi0 ∧ aggregate bi0 ≤ aggregate bi)
      as (bi0 & Hi0 & Hgrow).
    { destruct (decide (k = i)) as [<-|].
      - rewrite Hb in Hi. simpl in Hi. simplify_eq. exists b.
        split; [done|]. rewrite aggregate_snoc. lia.
      - exists bi. split; [done|lia]. }
    assert (∃ bj0, st.1 !! j = Some bj0 ∧ ∃ tl, bj = bj0 ++ tl)
      as (bj0 & Hj0 & tl & ->).
    { destruct (decide (k = j)) as [<-|].
      - rewrite Hb in Hj. simpl in Hj. simplify_eq. exists b. eauto.
      - exists bj. split; [done|]. exists []. by rewrite app_nil_r. }
    destruct (Hany i j bi0 bj0 Hij Hi0 Hj0) as (x & rest & -> & Hgt).
    exists x, (rest ++ tl). split; [done|lia].
  - intros i j bi bj Hij Hi Hj.
    apply lookup_snoc_Some in Hj as [[Hj Hbj]|[-> <-]].
    + rewrite lookup_app_l in Hi by lia. by apply (Hany i j).
    + rewrite lookup_app_l in Hi by lia.
      exists it.1, []. split; [done|].
      destruct (Forall2_lookup_l _ _ _ _ _ Htr Hi) as (a & Ha & ->).
      rewrite Forall_lookup in Hnone, Hsz.
      specialize (Hnone _ _ Ha). specialize (Hsz _ _ Ha). simpl in *. lia.
Qed.

Lemma loop_any_fit C (items : list (Obj * Z)) (st : plan) :
  Forall (λ it, it.2 = get_file_len it.1 ∧ 0 < it.2) items →
  tracked st → Forall (λ a, 0 ≤ a) st.2 → any_fit C st.1 →
  any_fit C (foldl (place C) st items).1.
Proof.
  revert st. induction items as [|it items IH]; intros st Hall Htr Hsz Hany;
    simpl; [done|].
  apply Forall_cons in Hall as [[Hcost Hpos] Hall].
  apply IH; [done| | |].
  - by apply place_tracked.
  - apply place_sizes_nonneg; [lia|done].
  - by apply place_any_fit.
Qed.

(** Everything goes into the one batch while the capacity covers it. *)
Lemma loop_one_batch C (items : list (Obj * Z)) (b : list Obj) (a : Z) :
  0 ≤ a → Forall (λ it, 0 < it.2) items → a + sum_sizes items ≤ C →
  foldl (place C) ([b], [a]) items = ([b ++ items.*1], [a + sum_sizes items]).
Proof.
  revert b a. induction items as [|it items IH]; intros b a Ha Hall Hsum;
    simpl.
  - by rewrite app_nil_r, Z.add_0_r.
  - apply Forall_cons in Hall as [Hit Hall]. simpl in Hsum.
    assert (0 ≤ sum_sizes items).
    { apply sum_sizes_nonneg. eapply Forall_impl; [exact Hall|].
      simpl. intros; lia. }
    assert (place C ([b], [a]) it = ([b ++ [it.1]], [a + it.2])) as ->.
    { unfold place. cbn [fst snd find_best_fit].
      rewrite (bool_decide_true (_ ∧ _)) by lia.
      by rewrite bool_decide_true. }
    rewrite IH by (done || lia).
    by rewrite <-app_assoc, Z.add_assoc.
Qed.

(** With a capacity of 0 or less no batch is ever a candidate. *)
Lemma loop_no_capacity C (items : list (Obj * Z)) (st : plan) :
  C ≤ 0 →
  foldl (place C) st items =
  (st.1 ++ ((λ it, [it.1]) <$> items), st.2 ++ items.*2).
Proof.
  intros HC. revert st. induction items as [|it items IH]; intros st; simpl.
  - rewrite !app_nil_r. by destruct st.
  - assert (place C st it = (st.1 ++ [[it.1]], st.2 ++ [it.2])) as ->.
    { unfold place. rewrite find_best_fit_no_candidate, bool_decide_false;
        [done|lia|].
      apply Forall_forall. intros; lia. }
    rewrite IH. simpl. by rewrite <-!app_assoc.
Qed.

End PlannerExtras.

(** X1. The parallel array [batch_sizes] that [batch_list] keeps holds,
    at the end, the aggregate cost of each returned batch, batch by
    batch. *)
Theorem batch_sizes_track_aggregates {Obj : Type} (get_file_len : Obj → Z)
    (lst : list Obj) (C : Z) :
  (final_plan get_file_len lst C).2 =
  aggregate get_file_len <$> batch_list get_file_len lst C.
Proof.
  apply tracked_eq. apply final_plan_invariants.
Qed.

(** X2. [batch_list] returns at least one batch, also for a bucket
    without sized items, and at most one batch more than the bucket has
    sized items. *)
Theorem batch_count_bounds {Obj : Type} (get_file_len : Obj → Z)
    (lst : list Obj) (C : Z) :
  (1 ≤ length (batch_list get_file_len lst C) ≤
   1 + length (filter (λ obj, get_file_len obj ≠ UNSIZED) lst))%nat.
Proof.
  split; [apply batch_list_length_pos|].
  rewrite <-sorted_items_length.
  apply (loop_length_le C (sorted_items get_file_len lst) initial_plan).
Qed.

(** X3. Inside every returned batch the members are in the order in
    which the loop placed them: their costs never increase from the
    first member to the last. *)
Theorem batch_members_cost_descending {Obj : Type} (get_file_len : Obj → Z)
    (lst : list Obj) (C : Z) :
  Forall (cost_descending get_file_len) (batch_list get_file_len lst C).
Proof.
  unfold batch_list, final_plan.
  apply loop_members_descending.
  - apply sort_desc_descending.
  - eapply Forall_impl; [apply sorted_items_cost|]. by intros it [? _].
  - apply Forall_singleton. split; [constructor|].
    intros x it Hx. by apply elem_of_nil in Hx.
Qed.

(** X4. When every sized item has a positive cost, a batch is opened
    only for an item that no batch before it can take: for two returned
    batches, the first member of the later one does not fit into the
    earlier one, whose aggregate cost plus the cost of that member
    exceeds the capacity. *)
Theorem later_batch_head_does_not_fit {Obj : Type} (get_file_len : Obj → Z)
    (lst : list Obj) (C : Z) :
  (∀ obj, obj ∈ lst → get_file_len obj = UNSIZED ∨ 0 < get_file_len obj) →
  any_fit get_file_len C (batch_list get_file_len lst C).
Proof.
  intros Hpos. unfold batch_list, final_plan.
  apply loop_any_fit.
  - apply Forall_forall. intros it (Hin & Hc & Hne)%sorted_items_elem.
    split; [done|]. destruct (Hpos _ Hin) as [Hu|?]; [|lia].
    unfold UNSIZED in Hu. congruence.
  - apply initial_plan_tracked.
  - by apply Forall_singleton.
  - intros i j bi bj Hij Hi Hj. apply lookup_lt_Some in Hj. simpl in Hj. lia.
Qed.

Lemma later_batch_head_does_not_fit_witness :
  any_fit (λ x : Z, x) 100 (batch_list (λ x : Z, x) [60; -1; 50; 40] 100).
Proof.
  apply (later_batch_head_does_not_fit (λ x : Z, x) [60; -1; 50; 40] 100).
  intros obj Hobj. unfold UNSIZED.
  repeat (apply elem_of_cons in Hobj as [->|Hobj]; [lia|]).
  by apply elem_of_nil in Hobj.
Defined.

(** X5. When every sized item has a positive cost and the capacity
    covers the total cost of the bucket, [batch_list] returns one batch
    with all sized items, in descending order of cost. *)
Theorem covered_bucket_is_one_batch {Obj : Type} (get_file_len : Obj → Z)
    (lst : list Obj) (C : Z) :
  (∀ obj, obj ∈ lst → get_file_len obj = UNSIZED ∨ 0 < get_file_len obj) →
  total_cost get_file_len lst ≤ C →
  batch_list get_file_len lst C = [(sorted_items get_file_len lst).*1].
Proof.
  intros Hpos Htotal. unfold batch_list, final_plan, initial_plan.
  rewrite <-sum_sizes_sorted_items in Htotal.
  rewrite loop_one_batch; [done|done| |lia].
  apply Forall_forall. intros it (Hin & Hc & Hne)%sorted_items_elem.
  destruct (Hpos _ Hin) as [Hu|?]; [|lia]. unfold UNSIZED in Hu. congruence.
Qed.

Lemma covered_bucket_is_one_batch_witness :
  batch_list (λ x : Z, x) [20; -1; 50; 30] 100 =
  [(sorted_items (λ x : Z, x) [20; -1; 50; 30]).*1].
Proof.
  apply (covered_bucket_is_one_batch (λ x : Z, x) [20; -1; 50; 30] 100).
  - intros obj Hobj. unfold UNSIZED.
    repeat (apply elem_of_cons in Hobj as [->|Hobj]; [lia|]).
    by apply elem_of_nil in Hobj.
  - vm_compute. congruence.
Defined.

(** X6. With a capacity of 0 or less (a [batch_multiplier] or a
    configured batch size that is not positive) nothing is ever put
    into an existing batch: [batch_list] returns the empty batch it
    starts with, followed by one batch per sized item, in descending
    order of cost. *)
Theorem no_capacity_one_item_per_batch {Obj : Type} (get_file_len : Obj → Z)
    (lst : list Obj) (C : Z) :
  C ≤ 0 →
  batch_list get_file_len lst C =
  [] :: ((λ it, [it.1]) <$> sorted_items get_file_len lst).
Proof.
  intros HC. unfold batch_list, final_plan.
  by rewrite loop_no_capacity.
Qed.

Lemma no_capacity_one_item_per_batch_witness :
  batch_list (λ x : Z, x) [20; -1; 50] 0 =
  [] :: ((λ it, [it.1]) <$> sorted_items (λ x : Z, x) [20; -1; 50]).
Proof.
  apply (no_capacity_one_item_per_batch (λ x : Z, x) [20; -1; 50] 0). lia.
Defined.

(** ** The dispatcher *)

Section DispatcherExtras.

Context {File Sample Value Processor : Type} `{EqDecision Processor}.
Variable name : Processor → string.
Variable get_file_len : Processor → File → Z.
Variable get_processors : list Processor.
Variable from_file : File → option Processor.
Variable URLProcessor : Processor.
Variable run : Processor → custom_config Value → list File → bool →
               outcome (list Sample).

Implicit Types (config : DispatcherConfig Value)
  (result : DispatcherReadyResult File)
  (m : dict Processor (list File)).

Lemma dict_get_set {K V : Type} `{EqDecision K} (q p : K) (v : V)
    (d : dict K V) :
  dict_get q (dict_set p v d) = if decide (q = p) then Some v else dict_get q d.
Proof.
  destruct (decide (q = p)) as [->|Hne].
  - apply dict_get_set_eq.
  - by apply dict_get_set_ne.
Qed.

Lemma registry_buckets_lookup (ps : list Processor) m q :
  dict_get q (foldl (λ m p, dict_set p [] m) m ps) =
  if decide (q ∈ ps) then Some [] else dict_get q m.
Proof.
  revert m. induction ps as [|p ps IH]; intros m; simpl.
  - destruct (decide (q ∈ [])) as [Hin|]; [by apply elem_of_nil in Hin|done].
  - rewrite IH, dict_get_set.
    destruct (decide (q ∈ ps)) as [Hin|Hnin].
    + rewrite decide_True; [done|]. apply elem_of_cons. by right.
    + destruct (decide (q = p)) as [->|Hne].
      * rewrite decide_True; [done|]. apply elem_of_cons. by left.
      * rewrite decide_False; [done|]. by intros [?|?]%elem_of_cons.
Qed.

Local Abbreviation routable := (routable from_file).

Lemma bucket_fold_raises e (files : list File) :
  foldl (λ acc file, m ← acc; bucket_append name m (from_file file) [file])
    (Raises e) files = Raises e.
Proof. induction files as [|f files IH]; simpl; done. Qed.

Lemma bucket_fold_spec (files : list File) m :
  match foldl (λ acc file, m ← acc; bucket_append name m (from_file file) [file])
          (Returns m) files with
  | Returns m' =>
      (∀ f, f ∈ files → routable m f) ∧
      ∀ q, dict_get q m' =
           (λ l, l ++ filter (λ f, from_file f = Some q) files) <$> dict_get q m
  | Raises _ => ¬ ∀ f, f ∈ files → routable m f
  end.
Proof.
  revert m. induction files as [|f files IH]; intros m.
  - simpl. split; [by intros f ?%elem_of_nil|].
    intros q. destruct (dict_get q m); simpl; [|done]. by rewrite app_nil_r.
  - simpl.
    destruct (bucket_append name m (from_file f) [f]) as [m1|e] eqn:Happ.
    + unfold bucket_append in Happ.
      destruct (from_file f) as [p|] eqn:Hf; [|done].
      destruct (dict_get p m) as [l|] eqn:Hl; [|done].
      injection Happ as <-.
      specialize (IH (dict_set p (l ++ [f]) m)).
      assert (∀ f', routable (dict_set p (l ++ [f]) m) f' ↔ routable m f')
        as Hsame.
      { intros f'. unfold routable. split; intros (p' & Hp' & Hsome);
          exists p'; (split; [done|]); rewrite dict_get_set in *;
          destruct (decide (p' = p)) as [->|]; try done. }
      destruct (foldl _ _ files) as [m'|e].
      * destruct IH as [Hroute Hget]. split.
        -- intros f' [->|Hf']%elem_of_cons.
           ++ exists p. by rewrite Hl.
           ++ by apply Hsame, Hroute.
        -- intros q. rewrite Hget, dict_get_set, filter_cons.
           destruct (decide (q = p)) as [->|Hne].
           ++ rewrite Hl, decide_True by done. simpl.
              by rewrite <-app_assoc.
           ++ rewrite decide_False by congruence. done.
      * intros Hroute. apply IH. intros f' Hf'. apply Hsame, Hroute.
        apply elem_of_cons. by right.
    + rewrite bucket_fold_raises. intros Hroute.
      destruct (Hroute f) as (p' & Hp' & [l Hl]);
        [apply elem_of_cons; by left|].
      unfold bucket_append in Happ. by rewrite Hp', Hl in Happ.
Qed.

Lemma first_items_nonempty {A : Type} (ds : list (list (string * A))) acc flat :
  first_items ds acc = Returns flat → Forall (λ d, d ≠ []) ds.
Proof.
  revert acc. induction ds as [|d ds IH]; intros acc; simpl; [by constructor|].
  destruct d as [|[k v] d]; [done|].
  intros Hflat. constructor; [done|]. by eapply IH.
Qed.

(** The value a key has after the comprehension: that of the last
    dictionary in the list whose first key it is. *)
Lemma first_items_lookup {A : Type} (ds : list (list (string * A))) acc flat k :
  first_items ds acc = Returns flat →
  flat !! k =
  match last (filter (λ kv, kv.1 = k) (omap head ds)) with
  | Some kv => Some kv.2
  | None => acc !! k
  end.
Proof.
  revert acc. induction ds as [|d ds IH]; intros acc Hflat.
  - simpl in *. by injection Hflat as ->.
  - destruct d as [|[k' v] d]; [done|].
    change (first_items ds (<[k':=v]> acc) = Returns flat) in Hflat.
    change (omap head (((k', v) :: d) :: ds)) with ((k', v) :: omap head ds).
    rewrite filter_cons, (IH _ Hflat).
    destruct (decide ((k', v).1 = k)) as [Heq|Hne]; simpl in *.
    + subst k'.
      destruct (filter (λ kv, kv.1 = k) (omap head ds)) as [|kv l]; simpl.
      * by rewrite lookup_insert_eq.
      * destruct (last (kv :: l)) eqn:Hlast; [done|].
        by apply last_None in Hlast.
    + destruct (last _); [done|]. by rewrite lookup_insert_ne.
Qed.

End DispatcherExtras.

(** X7. [_bucket_files] returns a map exactly when [URLProcessor] is
    registered and [AutoProcessor.from_file] gives a registered
    processor for every file; otherwise the lookup in [processor_map]
    raises [KeyError]. *)
Theorem bucket_files_returns_iff {File Processor : Type}
    `{EqDecision Processor}
    (name : Processor → string) (get_processors : list Processor)
    (from_file : File → option Processor) (URLProcessor : Processor)
    (result : DispatcherReadyResult File) :
  (∃ m, _bucket_files name get_processors from_file URLProcessor result
          = Returns m) ↔
  URLProcessor ∈ get_processors ∧
  ∀ file, file ∈ concat (snd <$> file_paths result) →
    ∃ p, from_file file = Some p ∧ p ∈ get_processors.
Proof.
  unfold _bucket_files.
  pose proof (bucket_fold_spec name from_file
                (concat (snd <$> file_paths result))
                (foldl (λ (m : dict Processor (list File)) p, dict_set p [] m) []
                   get_processors)) as Hfold.
  assert (∀ p, is_Some (dict_get p
                  (foldl (λ (m : dict Processor (list File)) p, dict_set p [] m) []
                   get_processors))
               ↔ p ∈ get_processors) as Hkeys.
  { intros p. rewrite registry_buckets_lookup.
    destruct (decide (p ∈ get_processors)); simpl; [by split|].
    split; [by intros []|done]. }
  destruct (foldl _ (Returns _) (concat _)) as [m1|e]; simpl.
  - destruct Hfold as [Hroute Hget]. unfold bucket_append.
    rewrite Hget. split.
    + intros [m Hm]. split.
      * apply Hkeys. destruct (dict_get URLProcessor _); [done|].
        simpl in Hm. congruence.
      * intros f Hf. destruct (Hroute f Hf) as (p & Hp & Hsome).
        exists p. split; [done|]. by apply Hkeys.
    + intros [Hurl _]. apply Hkeys in Hurl as [l Hl]. rewrite Hl. simpl. eauto.
  - split; [by intros [m ?]|]. intros [_ Hall]. exfalso. apply Hfold.
    intros f Hf. destruct (Hall f Hf) as (p & Hp & Hreg).
    exists p. split; [done|]. by apply Hkeys.
Qed.

(** X8. The map [_bucket_files] returns has a bucket for each registered
    processor and for no other; the bucket of a processor holds the
    files that [AutoProcessor.from_file] gives to it, in input order,
    and the bucket of [URLProcessor] ends with all the URLs. *)
Theorem bucket_files_buckets {File Processor : Type} `{EqDecision Processor}
    (name : Processor → string) (get_processors : list Processor)
    (from_file : File → option Processor) (URLProcessor : Processor)
    (result : DispatcherReadyResult File)
    (m : dict Processor (list File)) (p : Processor) :
  _bucket_files name get_processors from_file URLProcessor result = Returns m →
  dict_get p m =
  if decide (p ∈ get_processors)
  then Some (bucket_of from_file URLProcessor
               (concat (snd <$> file_paths result)) (urls result) p)
  else None.
Proof.
  unfold _bucket_files, bucket_of.
  pose proof (bucket_fold_spec name from_file
                (concat (snd <$> file_paths result))
                (foldl (λ (m : dict Processor (list File)) p, dict_set p [] m) []
                   get_processors)) as Hfold.
  destruct (foldl _ (Returns _) (concat _)) as [m1|e]; simpl; [|done].
  destruct Hfold as [_ Hget]. unfold bucket_append.
  destruct (dict_get URLProcessor m1) as [l|] eqn:Hl; [|done].
  intros [= <-]. rewrite dict_get_set.
  rewrite Hget, registry_buckets_lookup in Hl.
  destruct (decide (p = URLProcessor)) as [->|Hne].
  - destruct (decide (URLProcessor ∈ get_processors)); [|done].
    simpl in Hl. by simplify_eq.
  - rewrite Hget, registry_buckets_lookup.
    destruct (decide (p ∈ get_processors)); simpl; [|done].
    by rewrite app_nil_r.
Qed.

Lemma bucket_files_buckets_witness :
  dict_get Demo.DocProcessor
    [(Demo.DocProcessor, [10; 20]); (Demo.URLProcessor, [5])] =
  if decide (Demo.DocProcessor ∈ Demo.get_processors)
  then Some (bucket_of Demo.from_file Demo.URLProcessor
               (concat (snd <$> file_paths
                  {| file_paths := [("dir", [10; 20])]; urls := [5] |}))
               (urls {| file_paths := [("dir", [10; 20])]; urls := [5] |})
               Demo.DocProcessor)
  else None.
Proof.
  apply (bucket_files_buckets Demo.name Demo.get_processors Demo.from_file
           Demo.URLProcessor
           {| file_paths := [("dir", [10; 20])]; urls := [5] |}).
  reflexivity.
Defined.

(** X9. [dispatch] returns a result sequence exactly in local mode, when
    [_bucket_files] succeeds (X7) and no entry of [process_batch_sizes]
    is an empty dictionary; in distributed mode it never returns one. *)
Theorem dispatch_returns_iff {File Sample Value Processor : Type}
    `{EqDecision Processor}
    (name : Processor → string) (get_file_len : Processor → File → Z)
    (get_processors : list Processor) (from_file : File → option Processor)
    (URLProcessor : Processor)
    (run : Processor → custom_config Value → list File → bool →
           outcome (list Sample))
    (config : DispatcherConfig Value) (result : DispatcherReadyResult File) :
  (∃ g, dispatch name get_file_len get_processors from_file URLProcessor run
          config result = Returns g) ↔
  distributed config = false ∧
  (∃ m, _bucket_files name get_processors from_file URLProcessor result
          = Returns m) ∧
  Forall (λ d, d ≠ []) (default [] (process_batch_sizes config)).
Proof.
  unfold dispatch.
  destruct (_bucket_files _ _ _ _ _) as [m|e]; simpl.
  - destruct (first_items (default [] (process_batch_sizes config)) ∅)
      as [flat|e] eqn:Hflat; simpl.
    + apply first_items_nonempty in Hflat.
      destruct (distributed config).
      * split; [by intros [g ?]|]. by intros [? _].
      * split; [|by eauto]. intros _. eauto.
    + split; [by intros [g ?]|]. intros (_ & _ & Hwf).
      destruct (first_items_returns _ ∅ Hwf) as [flat Hflat'].
      rewrite Hflat in Hflat'. done.
  - split; [by intros [g ?]|]. by intros (_ & [m ?] & _).
Qed.

(** X10. The files of all tasks that [dispatch] makes, taken together as
    a multiset, are the files of all buckets without those whose cost
    is [UNSIZED]: between bucketing and execution exactly the unsized
    files are dropped. *)
Theorem tasks_keep_sized_files {File Value Processor : Type}
    (name : Processor → string) (get_file_len : Processor → File → Z)
    (config : DispatcherConfig Value) (batch_sizes : gmap string Z)
    (intermediate_map : dict Processor (list File)) :
  concat (snd <$> make_task_lists name get_file_len config batch_sizes
                    intermediate_map) ≡ₚ
  concat ((λ entry, filter (λ file, get_file_len entry.1 file ≠ UNSIZED)
                      entry.2) <$> intermediate_map).
Proof.
  induction intermediate_map as [|[p fl] m IH].
  - reflexivity.
  - rewrite make_task_lists_cons, fmap_app, concat_app, fmap_cons, IH.
    simpl. apply Permutation_app_tail.
    case_bool_decide as Hlen.
    + assert (∀ l : list (list File),
                snd <$> ((λ batch, (p, batch)) <$> l) = l) as ->.
      { induction l as [|b l IHl]; [done|]. rewrite !fmap_cons. simpl.
        by rewrite IHl. }
      apply final_plan_invariants.
    + destruct fl; [done|simpl in Hlen; lia].
Qed.

(** X11. Every task pairs a processor with a batch of its own bucket:
    the batch is one of those [batch_list] returns for the bucket of
    that processor at its capacity, and each of its files is a sized
    file of that bucket. *)
Theorem tasks_stay_in_bucket {File Value Processor : Type}
    (name : Processor → string) (get_file_len : Processor → File → Z)
    (config : DispatcherConfig Value) (batch_sizes : gmap string Z)
    (intermediate_map : dict Processor (list File))
    (processor : Processor) (batch : list File) :
  (processor, batch) ∈
    make_task_lists name get_file_len config batch_sizes intermediate_map →
  ∃ file_list,
    (processor, file_list) ∈ intermediate_map ∧
    batch ∈ batch_list (get_file_len processor) file_list
              (obj_batch_size name config batch_sizes processor) ∧
    ∀ file, file ∈ batch →
      file ∈ file_list ∧ get_file_len processor file ≠ UNSIZED.
Proof.
  induction intermediate_map as [|[p fl] m IH].
  - by intros ?%elem_of_nil.
  - rewrite make_task_lists_cons. intros [Hhere|Hlater]%elem_of_app.
    + case_bool_decide; [|by apply elem_of_nil in Hhere].
      apply list_elem_of_fmap in Hhere as (b & [= -> ->] & Hb).
      exists fl. split; [apply elem_of_cons; by left|]. split; [done|].
      intros f Hf.
      assert (f ∈ concat (batch_list (get_file_len p) fl
                (obj_batch_size name config batch_sizes p))) as Hin
        by (apply elem_of_concat_batches; eauto).
      destruct (final_plan_invariants (get_file_len p) fl
                  (obj_batch_size name config batch_sizes p))
        as (_ & _ & Hperm).
      rewrite Hperm in Hin. apply list_elem_of_filter in Hin as [? ?]. done.
    + destruct (IH Hlater) as (fl' & Hin & Hrest).
      exists fl'. split; [apply elem_of_cons; by right|done].
Qed.

Lemma tasks_stay_in_bucket_witness :
  ∃ file_list,
    (Demo.DocProcessor, file_list) ∈
      [(Demo.DocProcessor, [60; -1; 50]); (Demo.URLProcessor, [])] ∧
    [60] ∈ batch_list (Demo.get_file_len Demo.DocProcessor) file_list
             (obj_batch_size Demo.name (Demo.config false)
                {["DocProcessor" := 100]} Demo.DocProcessor) ∧
    ∀ file, file ∈ [60] →
      file ∈ file_list ∧ Demo.get_file_len Demo.DocProcessor file ≠ UNSIZED.
Proof.
  apply (tasks_stay_in_bucket Demo.name Demo.get_file_len (Demo.config false)
           {["DocProcessor" := 100]}
           [(Demo.DocProcessor, [60; -1; 50]); (Demo.URLProcessor, [])]
           Demo.DocProcessor [60]).
  vm_compute. apply elem_of_cons. by left.
Defined.


(** X13. What [_dispatch_local] hands to
    [save_individual_processor_results]: nothing is written when
    [output_path] is [None] or the empty string; otherwise each yielded
    result is written once, in order, under the name of the processor
    of its task. *)
Theorem dispatch_local_saves_each_result
    {File Sample Value Processor : Type}
    (name : Processor → string)
    (run : Processor → custom_config Value → list File → bool →
           outcome (list Sample))
    (config : DispatcherConfig Value)
    (task_lists : list (Task File Processor)) :
  let g := _dispatch_local name run config task_lists in
  saved g =
  match output_path config with
  | None => []
  | Some path =>
      if bool_decide (path = EmptyString) then []
      else zip ((λ task, name task.1) <$> task_lists) (yielded g)
  end.
Proof.
  induction task_lists as [|task rest IH]; simpl.
  - destruct (output_path config) as [path|]; [|done]. by case_bool_decide.
  - destruct (run_task name run config task) as [res|e]; simpl.
    + simpl in IH. rewrite IH. unfold save_individual_processor_results.
      destruct (output_path config) as [path|]; [|done].
      by case_bool_decide.
    + destruct (output_path config) as [path|]; [|done]. by case_bool_decide.
Qed.

(** X14. The capacity [dispatch] uses for a processor: in the list
    [process_batch_sizes] only the first key of each dictionary counts,
    and of the dictionaries whose first key is the name of the
    processor the last one wins; without such a dictionary the base
    capacity is 100.  The base is multiplied by [batch_multiplier]. *)
Theorem obj_batch_size_from_config {Value Processor : Type}
    (name : Processor → string) (config : DispatcherConfig Value)
    (batch_sizes : gmap string Z) (processor : Processor) :
  first_items (default [] (process_batch_sizes config)) ∅ = Returns batch_sizes →
  obj_batch_size name config batch_sizes processor =
  batch_multiplier config *
  default 100
    (snd <$> last (filter (λ kv, kv.1 = name processor)
                     (omap head (default [] (process_batch_sizes config))))).
Proof.
  intros Hflat. unfold obj_batch_size.
  rewrite (first_items_lookup _ _ _ (name processor) Hflat).
  by destruct (last _).
Qed.

Lemma obj_batch_size_from_config_witness :
  obj_batch_size Demo.name
    ({| use_fast_processors := true; distributed := false;
        scheduler_file := None; output_path := None;
        processor_config := None;
        process_batch_sizes :=
          Some [[("DocProcessor", 10); ("URLProcessor", 7)];
                [("DocProcessor", 40)]];
        batch_multiplier := 2 |} : DispatcherConfig ())
    {["DocProcessor" := 40]} Demo.URLProcessor =
  2 * default 100
        (snd <$> last (filter (λ kv, kv.1 = Demo.name Demo.URLProcessor)
           (omap head [[("DocProcessor", 10); ("URLProcessor", 7)];
                       [("DocProcessor", 40)]]))).
Proof.
  apply (obj_batch_size_from_config (Value := ()) Demo.name
           {| use_fast_processors := true; distributed := false;
              scheduler_file := None; output_path := None;
              processor_config := None;
              process_batch_sizes :=
                Some [[("DocProcessor", 10); ("URLProcessor", 7)];
                      [("DocProcessor", 40)]];
              batch_multiplier := 2 |}
           {["DocProcessor" := 40]} Demo.URLProcessor).
  vm_compute. reflexivity.
Defined.

(** ** The execution state *)

Section ExecutionStateExtras.

Context {Client : Type}.
Implicit Types (st : ExecutionState Client) (c : call Client)
  (calls : list (call Client)).

Lemma after_calls_app st calls c calls' :
  after_calls st (calls ++ c :: calls') =
  after_calls (after_call (after_calls st calls) c) calls'.
Proof. unfold after_calls. by rewrite foldl_app. Qed.

(** Once the mode is set, only [set_should_stop_execution] changes the
    state. *)
Lemma after_calls_no_set st calls b :
  _use_dask st = Some b → Forall (λ c, is_set c = false) calls →
  after_calls st calls = st.
Proof.
  intros Hb Hcalls. revert st Hb.
  induction Hcalls as [|c calls Hc _ IH]; intros st Hb; simpl; [done|].
  assert (after_call st c = st) as ->; [|by apply IH].
  destruct c; simpl; [| |done].
  - unfold initialize. by rewrite Hb.
  - unfold get_should_stop_execution. rewrite Hb.
    destruct b; [|done]. by destruct (on_dask_var _ _ _).
Qed.

(** In distributed mode nothing changes the state of the class. *)
Lemma after_calls_distributed st calls :
  _use_dask st = Some true → after_calls st calls = st.
Proof.
  intros Hb. revert st Hb.
  induction calls as [|c calls IH]; intros st Hb; simpl; [done|].
  assert (after_call st c = st) as ->; [|by apply IH].
  destruct c; simpl.
  - unfold initialize. by rewrite Hb.
  - unfold get_should_stop_execution. rewrite Hb.
    by destruct (on_dask_var _ _ _).
  - unfold set_should_stop_execution. by rewrite Hb.
Qed.

End ExecutionStateExtras.

(** X15. In local mode the state is the value last set: once
    [initialize(False)] has returned, [get_should_stop_execution]
    returns [False] until the first [set_should_stop_execution], and
    after that the value of the last [set_should_stop_execution],
    whatever the cluster answers and whatever else is called. *)
Theorem local_get_returns_last_set {Client : Type}
    (st st' : ExecutionState Client) (client : option Client)
    (create write : outcome ()) (calls calls' : list (call Client))
    (value : bool) (reply : outcome ()) (read : outcome bool) :
  initialize (Some false) client create write st = (Returns (), st') →
  Forall (λ c, is_set c = false) calls' →
  (get_should_stop_execution read (after_calls st' calls')).1
    = Returns false ∧
  (get_should_stop_execution read
     (after_calls st' (calls ++ Set_ value reply :: calls'))).1
    = Returns value.
Proof.
  intros Hinit Hcalls'.
  assert (_use_dask st' = Some false ∧ _local_state st' = false) as [Hb Hl].
  { unfold initialize in Hinit. destruct (_use_dask st); [done|].
    by simplify_eq. }
  split.
  - rewrite (after_calls_no_set st' calls' false Hb Hcalls').
    unfold get_should_stop_execution. by rewrite Hb, Hl.
  - rewrite after_calls_app.
    pose proof (after_calls_use_dask st' calls false Hb) as Hb'.
    assert (_use_dask (after_call (after_calls st' calls) (Set_ value reply))
            = Some false ∧
            _local_state (after_call (after_calls st' calls) (Set_ value reply))
            = value) as [Hb'' Hl''].
    { simpl. unfold set_should_stop_execution. by rewrite Hb'. }
    rewrite (after_calls_no_set _ calls' false Hb'' Hcalls').
    unfold get_should_stop_execution. by rewrite Hb'', Hl''.
Qed.

Lemma local_get_returns_last_set_witness :
  let st' : ExecutionState () :=
    {| _use_dask := Some false; _dask_var := None; _local_state := false |} in
  (get_should_stop_execution (Returns true)
     (after_calls st' [Get (Returns true)])).1 = Returns false ∧
  (get_should_stop_execution (Returns true)
     (after_calls st'
        ([Set_ false (Returns ())] ++
         Set_ true (Raises (BackendError "down")) :: [Get (Returns true)]))).1
    = Returns true.
Proof.
  apply (local_get_returns_last_set class_state _ None (Returns ())
           (Returns ())).
  - reflexivity.
  - apply Forall_singleton. reflexivity.
Defined.

(** X16. A call of [initialize] in distributed mode that raises (no
    client, or a failure of the cluster while the variable is created
    or first written) has already stored the mode: the class counts as
    initialized, every later [initialize] raises the
    already-initialized exception, and [get_should_stop_execution]
    answers [True] when the cluster cannot be read. *)
Theorem failed_distributed_initialize_sticks {Client : Type}
    (st st' : ExecutionState Client) (client client' : option Client)
    (create write create' write' : outcome ()) (e err : exn)
    (mode' : option bool) (calls : list (call Client)) :
  _use_dask st = None →
  initialize (Some true) client create write st = (Raises e, st') →
  (initialize mode' client' create' write' (after_calls st' calls)).1
    = Raises (Exception "Execution state already initialized") ∧
  (get_should_stop_execution (Raises err) (after_calls st' calls)).1
    = Returns true.
Proof.
  intros Hnone Hinit.
  assert (_use_dask st' = Some true) as Hb.
  { unfold initialize in Hinit. rewrite Hnone in Hinit.
    destruct client; [|by simplify_eq].
    destruct create; [|by simplify_eq].
    simpl in Hinit. by simplify_eq. }
  rewrite (after_calls_distributed st' calls Hb). split.
  - unfold initialize. by rewrite Hb.
  - unfold get_should_stop_execution. rewrite Hb.
    by destruct (_dask_var st').
Qed.

Lemma failed_distributed_initialize_sticks_witness :
  let st' : ExecutionState () :=
    {| _use_dask := Some true; _dask_var := None; _local_state := false |} in
  (initialize (Some false) None (Returns ()) (Returns ())
     (after_calls st' [Get (Returns false)])).1
    = Raises (Exception "Execution state already initialized") ∧
  (get_should_stop_execution (Raises (BackendError "down"))
     (after_calls st' [Get (Returns false)])).1
    = Returns true.
Proof.
  apply (failed_distributed_initialize_sticks class_state _ None None
           (Returns ()) (Returns ()) (Returns ()) (Returns ())
           (AssertionError
              "You must be in the context of a dask client to use distributed mode")).
  - reflexivity.
  - reflexivity.
Defined.

(** X17. In distributed mode the value lives in the cluster only: once
    [initialize(True, client)] has returned, no later call changes the
    static variables of the class, and [get_should_stop_execution]
    returns what the cluster answers to the read. *)
Theorem distributed_state_is_remote {Client : Type}
    (st st' : ExecutionState Client) (client : option Client)
    (create write : outcome ()) (calls : list (call Client)) (b : bool) :
  initialize (Some true) client create write st = (Returns (), st') →
  after_calls st' calls = st' ∧
  get_should_stop_execution (Returns b) (after_calls st' calls)
    = (Returns b, st').
Proof.
  intros Hinit.
  destruct (initialize_returns _ _ _ _ _ _ Hinit)
    as (b' & [= <-] & Hb & Hvar).
  rewrite (after_calls_distributed st' calls Hb). split; [done|].
  unfold get_should_stop_execution. rewrite Hb.
  by destruct (Hvar eq_refl) as [v ->].
Qed.

Lemma distributed_state_is_remote_witness :
  let st' :=
    {| _use_dask := Some true;
       _dask_var := Some {| var_name := "should_stop_execution";
                            var_client := () |};
       _local_state := false |} in
  after_calls st' [Set_ true (Returns ()); Get (Returns true)] = st' ∧
  get_should_stop_execution (Returns true)
    (after_calls st' [Set_ true (Returns ()); Get (Returns true)])
    = (Returns true, st').
Proof.
  apply (distributed_state_is_remote class_state _ (Some ()) (Returns ())
           (Returns ())).
  reflexivity.
Defined.

(** ** The compute descriptor and the configuration dictionary *)

(** X18. [ComputeDescriptor.get_desc] returns a descriptor with a GPU
    size exactly when it reports at least one GPU, and with 0 GPUs and
    no size when CUDA is not available; when CUDA is available but no
    device is counted it reads [gpu_size] before any assignment and
    ends in [UnboundLocalError]. *)
Theorem get_desc_result (cuda_is_available : bool)
    (device_count total_memory : Z) :
  match ComputeDescriptor.get_desc cuda_is_available device_count
          total_memory with
  | ComputeDescriptor.Desc num_gpus gpu_size =>
      0 ≤ num_gpus ∧ (gpu_size = None ↔ num_gpus = 0) ∧
      (cuda_is_available = true → 0 < device_count) ∧
      (cuda_is_available = false → num_gpus = 0)
  | ComputeDescriptor.UnboundLocalError variable =>
      variable = "gpu_size" ∧ cuda_is_available = true ∧ device_count ≤ 0
  end.
Proof.
  unfold ComputeDescriptor.get_desc.
  destruct cuda_is_available; [case_bool_decide|]; simpl.
  - repeat split; try done; try lia.
  - repeat split; try done; lia.
  - repeat split; done.
Qed.

Section ConfigDictExtras.

Context {PyObj : Type}.
Variables (py_True py_False py_None py_1 : PyObj).

Lemma config_get_insert (d : gmap string PyObj) (k k' : string) (v dflt : PyObj) :
  ConfigDict.get (<[k':=v]> d) k dflt =
  if decide (k' = k) then v else ConfigDict.get d k dflt.
Proof.
  unfold ConfigDict.get. rewrite lookup_insert. by case_decide.
Qed.

End ConfigDictExtras.

(** X19. [DispatcherConfig.from_dict] undoes [DispatcherConfig.to_dict]:
    the dictionary written from a configuration gives back a
    configuration with the same seven attributes. *)
Theorem from_dict_to_dict {PyObj : Type} (py_True py_False py_None py_1 : PyObj)
    (self : ConfigDict.attributes PyObj) :
  ConfigDict.from_dict py_True py_False py_None py_1 (ConfigDict.to_dict self)
  = self.
Proof.
  destruct self. unfold ConfigDict.from_dict, ConfigDict.to_dict. simpl.
  rewrite !config_get_insert. reflexivity.
Qed.

(** X20. [to_dict] after [from_dict] normalizes a dictionary: each of
    the seven known keys has the value of the dictionary, or the
    default of [from_dict] when the key is missing, and every other key
    is dropped. *)
Theorem to_dict_from_dict {PyObj : Type} (py_True py_False py_None py_1 : PyObj)
    (config : gmap string PyObj) (key : string) :
  ConfigDict.to_dict
    (ConfigDict.from_dict py_True py_False py_None py_1 config) !! key =
  (λ dflt, ConfigDict.get config key dflt) <$>
    dict_get key (ConfigDict.keys py_True py_False py_None py_1).
Proof.
  unfold ConfigDict.to_dict, ConfigDict.from_dict, ConfigDict.keys. simpl.
  rewrite !lookup_insert, lookup_empty.
  repeat (case_decide; [subst key; reflexivity|]).
  repeat (rewrite decide_False by congruence). reflexivity.
Qed.

(** ** Bucketing loses no file *)

Section BucketConservation.

Context {File Processor : Type} `{EqDecision Processor}.
Variable name : Processor → string.
Variable from_file : File → option Processor.

Implicit Types (m : dict Processor (list File)).

Lemma dict_set_concat m p (l l' : list File) :
  dict_get p m = Some l →
  concat (snd <$> dict_set p (l ++ l') m) ≡ₚ concat (snd <$> m) ++ l'.
Proof.
  induction m as [|[k v] m IH]; simpl; [done|].
  destruct (decide (p = k)) as [->|Hne].
  - intros [= ->]. rewrite fmap_cons. simpl.
    rewrite <-!app_assoc. apply Permutation_app_head, Permutation_app_comm.
  - intros Hget. rewrite fmap_cons. simpl.
    rewrite (IH Hget). by rewrite app_assoc.
Qed.

Lemma bucket_append_concat m p (files : list File) m' :
  bucket_append name m p files = Returns m' →
  concat (snd <$> m') ≡ₚ concat (snd <$> m) ++ files.
Proof.
  unfold bucket_append. destruct p as [p|]; [|done].
  destruct (dict_get p m) as [l|] eqn:Hl; [|done].
  intros [= <-]. by apply dict_set_concat.
Qed.

Lemma bucket_fold_concat (files : list File) m m' :
  foldl (λ acc file, m ← acc; bucket_append name m (from_file file) [file])
    (Returns m) files = Returns m' →
  concat (snd <$> m') ≡ₚ concat (snd <$> m) ++ files.
Proof.
  revert m. induction files as [|f files IH]; intros m; simpl.
  - intros [= ->]. by rewrite app_nil_r.
  - destruct (bucket_append name m (from_file f) [f]) as [m1|e] eqn:Happ.
    + intros Hfold. rewrite (IH _ Hfold), (bucket_append_concat _ _ _ _ Happ).
      by rewrite <-app_assoc.
    + by rewrite bucket_fold_raises.
Qed.

Lemma registry_buckets_concat (ps : list Processor) :
  concat (snd <$> foldl (λ (m : dict Processor (list File)) p,
                           dict_set p [] m) [] ps) = [].
Proof.
  pose proof (registry_buckets_empty (File := File) ps [] (Forall_nil_2 _))
    as Hall.
  induction Hall as [|[p l] m Hl _ IH]; [done|].
  rewrite fmap_cons. simpl in *. by rewrite Hl, IH.
Qed.

End BucketConservation.

(** X21. Bucketing loses and duplicates nothing: the files of all
    buckets of the map [_bucket_files] returns, taken together as a
    multiset, are the files of the crawl result and its URLs. *)
Theorem bucket_files_keeps_files {File Processor : Type}
    `{EqDecision Processor}
    (name : Processor → string) (get_processors : list Processor)
    (from_file : File → option Processor) (URLProcessor : Processor)
    (result : DispatcherReadyResult File)
    (m : dict Processor (list File)) :
  _bucket_files name get_processors from_file URLProcessor result = Returns m →
  concat (snd <$> m) ≡ₚ concat (snd <$> file_paths result) ++ urls result.
Proof.
  unfold _bucket_files.
  destruct (foldl _ (Returns _) (concat _)) as [m1|e] eqn:Hfold; simpl;
    [|done].
  intros Happ.
  rewrite (bucket_append_concat name m1 (Some URLProcessor) (urls result) m
             Happ).
  rewrite (bucket_fold_concat name from_file _ _ _ Hfold).
  by rewrite registry_buckets_concat.
Qed.

Lemma bucket_files_keeps_files_witness :
  concat (snd <$> [(Demo.DocProcessor, [10; 20]); (Demo.URLProcessor, [5])])
  ≡ₚ concat (snd <$> file_paths
       {| file_paths := [("dir", [10; 20])]; urls := [5] |}) ++
     urls {| file_paths := [("dir", [10; 20])]; urls := [5] |}.
Proof.
  apply (bucket_files_keeps_files Demo.name Demo.get_processors
           Demo.from_file Demo.URLProcessor
           {| file_paths := [("dir", [10; 20])]; urls := [5] |}).
  reflexivity.
Defined.
